(** * Waveform: audio feature extractor and scatter-ring engine

    A shallow embedding of [modules/audioManager.js] and
    [modules/visualizer.js].

    Number model.  The analyser buffers are [Uint8Array]s, so samples are
    integers ([Z], with the range [0..255] stated where it matters).  Values
    computed from them with [+ - * /] are modelled as exact rationals ([Q]):
    rounding of IEEE doubles (and of the [Float32Array] that stores
    [lineAmplitude]) is not modelled.  A division whose divisor is zero gives
    no finite number in JavaScript ([NaN] or an infinity); it is modelled by
    [None].  [Math.sqrt] is the real square root.  [Math.sin], [Math.cos] and
    [Math.PI] are host functions, taken as parameters of the geometry.

    Where the rounding or the range of doubles decides a property, the code
    is embedded a second time on binary64 floats (module [Doubles]): the
    presence update, the seed of [hash01] and the index of the waveform
    sample.  The properties of the presence over long runs, of [hash01] on
    huge seeds and of the sampled index are stated there. *)

From Stdlib Require Import ZArith QArith Qround Qabs Qminmax List Bool Lia Lra Psatz.
From Stdlib Require Import Reals Qreals Permutation.
From Stdlib Require PrimFloat FloatOps SpecFloat Uint63.
Import ListNotations.

Local Open Scope Q_scope.

(** ** JavaScript number helpers *)

Module Js.

(** [a / b]: [None] stands for the non-finite result of a zero divisor. *)
Definition div (a b : Q) : option Q :=
  if Qeq_bool b 0 then None else Some (a / b).

(** [n || 1] on an array length or index difference. *)
Definition orOne (n : nat) : nat :=
  match n with O => 1%nat | _ => n end.

End Js.

(** ** audioManager.js *)

Module AudioManager.

(** The inner loop of [computeBands]:
    [for (let j = start; j < end; j++) sum += freqArray[j]].
    An index outside the array reads [undefined], which would turn the sum
    into [NaN]: [None]. *)
Definition sumRange (freqArray : list Z) (start end_ : nat) : option Z :=
  fold_left
    (fun sum j =>
       match sum, nth_error freqArray j with
       | Some s, Some x => Some (s + x)%Z
       | _, _ => None
       end)
    (seq start (end_ - start)) (Some 0%Z).

Definition bandStart (bandSize i : nat) : nat := (i * bandSize)%nat.

Definition bandEnd (len bandSize bandCount i : nat) : nat :=
  if (i =? bandCount - 1)%nat then len else (bandStart bandSize i + bandSize)%nat.

(** One iteration of the outer loop: the value stored in [bands[i]]. *)
Definition bandValue (freqArray : list Z) (bandCount i : nat) : option Q :=
  let len := length freqArray in
  let bandSize := (len / bandCount)%nat in
  let start := bandStart bandSize i in
  let end_ := bandEnd len bandSize bandCount i in
  match sumRange freqArray start end_ with
  | Some sum =>
      Js.div (inject_Z sum) (inject_Z (Z.of_nat (Js.orOne (end_ - start))))
  | None => None
  end.

Definition computeBands (freqArray : list Z) (bandCount : nat)
  : list (option Q) :=
  map (bandValue freqArray bandCount) (seq 0 bandCount).

(** [computeRms]: the loop accumulates [v * v] for [v = (s - 128) / 128]. *)
Definition centered (s : Z) : Q := (inject_Z s - 128) / 128.

Definition sumSquares (timeArray : list Z) : Q :=
  fold_left (fun acc s => let v := centered s in acc + v * v) timeArray 0.

(** [sumSquares / len], the argument of [Math.sqrt]. *)
Definition meanSquare (timeArray : list Z) : option Q :=
  Js.div (sumSquares timeArray) (inject_Z (Z.of_nat (length timeArray))).

(** [Math.sqrt] of a non-finite argument is [NaN]. *)
Definition computeRms (timeArray : list Z) : option R :=
  match meanSquare timeArray with
  | Some m => Some (sqrt (Q2R m))
  | None => None
  end.

End AudioManager.

(** ** Helpers at the end of visualizer.js *)

Module Util.

Definition lerp (a b t : Q) : Q := a + (b - a) * t.

Definition clamp (v min max : Q) : Q := Qmax min (Qmin max v).

(** [a > b] as a test. *)
Definition gt (a b : Q) : bool := negb (Qle_bool a b).

Section Host.

Variable Math_sin : Q -> Q.

Definition texturedNoise (angle loudness : Q) : Q :=
  let wobble :=
    Math_sin (angle * 7.0) * 0.9 + Math_sin (angle * 13.0 + 0.7) * 0.55 in
  wobble * (1.5 + loudness * 6).

(** Exact arithmetic, so every seed has a result; on doubles
    ([Doubles.hash01]) the product overflows for seeds of magnitude
    [1.39e307] and more, and the result is [NaN]
    ([Seeds.hash01Number]). *)
Definition hash01 (x : Q) : Q :=
  let s := Math_sin (x * 12.9898 + 78.233) * 43758.5453 in
  s - inject_Z (Qfloor s).

End Host.

End Util.

(** ** visualizer.js *)

Module Visualizer.

Import Util.

(** What [audioSource.getFeatures()] hands to the visualizer; only [time]
    and [loudness] are read. *)
Record Features := mkFeatures {
  time : option (list Z);
  loudness : Q
}.

(** The closure variables written by the setters. *)
Record Config := mkConfig {
  sensitivity : Q;
  smoothing : Q;
  idleSpeed : Q;
  radialScatterMultiplier : Q;
  tangentialScatterMultiplier : Q
}.

(** [scatterState].  [idleDotOffsets] is allocated but never read or
    written, and is left out. *)
Record ScatterState := mkScatterState {
  segments : nat;
  lineAmplitude : list Q;
  idleAnimationTime : Q;
  audioPresence : Q;
  smoothedGlowRadius : Q;
  lastFrameTime : Q
}.

Record Visualizer := mkVisualizer {
  isMobile : bool;
  config : Config;
  scatterState : ScatterState
}.

(** [createVisualizer]: [mobile] is the result of the user-agent test and
    [now] the value of [performance.now()] at construction. *)
Definition createVisualizer (mobile : bool) (now : Q) : Visualizer :=
  let segs := if mobile then 100%nat else 140%nat in
  mkVisualizer mobile
    (mkConfig 7.2 1.4 5.0 1.0 0.4)
    (mkScatterState segs (repeat 0 segs) 0 0 0 now).

Definition withConfig (v : Visualizer) (c : Config) : Visualizer :=
  mkVisualizer (isMobile v) c (scatterState v).

Definition setSensitivity (v : Visualizer) (value : Q) : Visualizer :=
  let c := config v in
  withConfig v (mkConfig value (smoothing c) (idleSpeed c)
                  (radialScatterMultiplier c) (tangentialScatterMultiplier c)).

Definition setSmoothing (v : Visualizer) (value : Q) : Visualizer :=
  let c := config v in
  withConfig v (mkConfig (sensitivity c) value (idleSpeed c)
                  (radialScatterMultiplier c) (tangentialScatterMultiplier c)).

Definition setIdleSpeed (v : Visualizer) (value : Q) : Visualizer :=
  let c := config v in
  withConfig v (mkConfig (sensitivity c) (smoothing c) value
                  (radialScatterMultiplier c) (tangentialScatterMultiplier c)).

Definition setRadialScatter (v : Visualizer) (value : Q) : Visualizer :=
  let c := config v in
  withConfig v (mkConfig (sensitivity c) (smoothing c) (idleSpeed c)
                  value (tangentialScatterMultiplier c)).

Definition setTangentialScatter (v : Visualizer) (value : Q) : Visualizer :=
  let c := config v in
  withConfig v (mkConfig (sensitivity c) (smoothing c) (idleSpeed c)
                  (radialScatterMultiplier c) value).

(** *** The part of a frame that updates [scatterState] *)

(** [features?.loudness || 0] and [features?.time]. *)
Definition featLoudness (features : option Features) : Q :=
  match features with Some f => loudness f | None => 0 end.

Definition featTime (features : option Features) : option (list Z) :=
  match features with Some f => time f | None => None end.

Definition baseRadiusOf (mobile : bool) (width height : Q) : Q :=
  let longestEdge := Qmax width height in
  let visualizerDiameter :=
    if mobile then longestEdge * 0.4 else longestEdge * 0.25 in
  visualizerDiameter * 0.35.

(** The delta-time block of [drawFrame]. *)
Definition advanceClock (mobile : bool) (now : Q) (s : ScatterState)
  : ScatterState :=
  let deltaTime := (now - lastFrameTime s) / 1000 in
  let animationSpeed := if mobile then 1.5 else 1.0 in
  mkScatterState (segments s) (lineAmplitude s)
    (idleAnimationTime s + deltaTime * animationSpeed)
    (audioPresence s) (smoothedGlowRadius s) now.

(** [if (scatterState.smoothedGlowRadius === 0) ...]. *)
Definition initGlow (baseRadius : Q) (s : ScatterState) : ScatterState :=
  if Qeq_bool (smoothedGlowRadius s) 0
  then mkScatterState (segments s) (lineAmplitude s) (idleAnimationTime s)
         (audioPresence s) baseRadius (lastFrameTime s)
  else s.

(** The state update of [drawGlow]. *)
Definition drawGlow (sens radius loud : Q) (s : ScatterState) : ScatterState :=
  let maxGlow := radius * 1.3 in
  let targetGlowRadius := radius + loud * sens * maxGlow in
  let glowEase := 0.06 in
  mkScatterState (segments s) (lineAmplitude s) (idleAnimationTime s)
    (audioPresence s)
    (lerp (smoothedGlowRadius s) targetGlowRadius glowEase)
    (lastFrameTime s).

Definition audioThreshold (mobile : bool) : Q := if mobile then 0.01 else 0.02.
Definition timeVariationThreshold (mobile : bool) : Q :=
  if mobile then 0.03 else 0.05.

Definition hasAudioRaw (mobile : bool) (features : option Features) : bool :=
  gt (featLoudness features) (audioThreshold mobile)
  || match featTime features with
     | Some t =>
         (0 <? length t)%nat
         && existsb
              (fun s => gt (Qabs (inject_Z s / 255 - 0.5))
                           (timeVariationThreshold mobile)) t
     | None => false
     end.

Definition enterSpeed (mobile : bool) : Q := if mobile then 0.15 else 0.08.
Definition exitSpeed (mobile : bool) : Q := if mobile then 0.08 else 0.04.

(** The new value of [scatterState.audioPresence].  Exact arithmetic; the
    update on doubles, whose long runs come to rest short of the target,
    is [Doubles.nextPresence]. *)
Definition nextPresence (mobile : bool) (features : option Features)
  (presence : Q) : Q :=
  let targetPresence := if hasAudioRaw mobile features then 1.0 else 0.0 in
  let transitionSpeed :=
    if gt targetPresence presence then enterSpeed mobile else exitSpeed mobile in
  lerp presence targetPresence transitionSpeed.

Definition easeOf (mobile : bool) (smooth loud : Q) : Q :=
  let mobileSmoothingReduction := if mobile then 0.7 else 1.0 in
  let normalizedSmoothing := clamp (smooth / 3) 0 1 * mobileSmoothingReduction in
  let baseEase := lerp 0.3 0.01 normalizedSmoothing in
  clamp (baseEase + loud * 0.15) 0.03 0.35.

(** The waveform sample read for segment [i]; [0.5] without a waveform.
    Exact arithmetic: the index is the floor of the exact product.  The
    index the code gets from the rounded product is [Doubles.sampleIndex];
    the two agree on the analyser's 1024 samples, not on every length. *)
Definition segmentSample (segs : nat) (tm : option (list Z)) (i : nat) : Q :=
  let t := inject_Z (Z.of_nat i) / inject_Z (Z.of_nat segs) in
  match tm with
  | Some arr =>
      let timeLength := Z.of_nat (length arr) in
      if (0 <? timeLength)%Z then
        let idx := (Qfloor (t * inject_Z timeLength) mod timeLength)%Z in
        inject_Z (nth (Z.to_nat idx) arr 0%Z) / 255
      else 0.5
  | None => 0.5
  end.

Definition segmentTarget (mobile : bool) (sens maxAmplitude presence : Q)
  (segs : nat) (tm : option (list Z)) (i : nat) : Q :=
  let mapped := (segmentSample segs tm i - 0.5) * 2 in
  let mobileSensitivityBoost := if mobile then 1.3 else 1.0 in
  mapped * sens * maxAmplitude * presence * mobileSensitivityBoost.

(** The state update of [drawScatterRing]: the presence, then
    [lineAmplitude[i]] for each [i < segments]. *)
Definition updateRing (mobile : bool) (c : Config) (radius : Q)
  (features : option Features) (s : ScatterState) : ScatterState :=
  let loud := featLoudness features in
  let maxAmplitude := radius * 0.45 in
  let presence := nextPresence mobile features (audioPresence s) in
  let ease := easeOf mobile (smoothing c) loud in
  let amp i :=
    lerp (nth i (lineAmplitude s) 0)
      (segmentTarget mobile (sensitivity c) maxAmplitude presence
         (segments s) (featTime features) i)
      ease in
  mkScatterState (segments s) (map amp (seq 0 (segments s)))
    (idleAnimationTime s) presence (smoothedGlowRadius s) (lastFrameTime s).

(** One call of [drawFrame]: the canvas rectangle, the clock and the
    features of that frame. *)
Record FrameInput := mkFrameInput {
  rectWidth : Q;
  rectHeight : Q;
  frameNow : Q;
  frameFeatures : option Features
}.

Definition stepState (mobile : bool) (c : Config) (inp : FrameInput)
  (s : ScatterState) : ScatterState :=
  let baseRadius := baseRadiusOf mobile (rectWidth inp) (rectHeight inp) in
  let loud := featLoudness (frameFeatures inp) in
  let s1 := advanceClock mobile (frameNow inp) s in
  let s2 := initGlow baseRadius s1 in
  let s3 := drawGlow (sensitivity c) baseRadius loud s2 in
  updateRing mobile c (baseRadius * 1.25) (frameFeatures inp) s3.

(** *** The dots of a frame *)

(** One [ctx.arc(px, py, size, ...)] of the dot loop. *)
Record Dot := mkDot { px : Q; py : Q; size : Q }.

Definition ofNat (n : nat) : Q := inject_Z (Z.of_nat n).

Definition dotCount : nat := 20.

(** [Math.sin], [Math.cos] and [Math.PI] of the host. *)
Record Host := mkHost {
  Math_sin : Q -> Q;
  Math_cos : Q -> Q;
  Math_PI : Q
}.

(** The values fixed during one call of [drawScatterRing]: the device
    class, the setters' variables, [radius], [loudness], and the already
    updated [audioPresence] and [idleAnimationTime]. *)
Record Ring := mkRing {
  mobile : bool;
  cfg : Config;
  radius : Q;
  loud : Q;
  presence : Q;
  idleTime : Q;
  segs : nat
}.

Definition maxAmplitudeOf (r : Ring) : Q := radius r * 0.45.
Definition innerRadius (r : Ring) : Q := radius r * 0.78.
Definition segmentBaseLength (r : Ring) : Q := radius r * 0.55.

Definition angleOf (h : Host) (r : Ring) (i : nat) : Q :=
  ofNat i / ofNat (segs r) * Math_PI h * 2.

Definition tex (h : Host) (r : Ring) (i : nat) : Q :=
  texturedNoise (Math_sin h) (angleOf h r i) (loud r) * presence r.

(** [length] of segment [i], whose updated amplitude is [amp]. *)
Definition lengthOf (h : Host) (r : Ring) (i : nat) (amp : Q) : Q :=
  let uniformVariation := 1.0 in
  let variedVariation := hash01 (Math_sin h) (ofNat i * 47.13) * 0.4 + 0.8 in
  let lineLengthVariation :=
    lerp uniformVariation variedVariation (presence r) in
  let amplitudeGrowth := Qabs amp * 0.62 * presence r in
  segmentBaseLength r * lineLengthVariation + amplitudeGrowth
  + tex h r i * 0.45.

Definition r0 (h : Host) (r : Ring) (i : nat) : Q :=
  innerRadius r + tex h r i * 0.25 * presence r.
Definition r1 (h : Host) (r : Ring) (i : nat) (amp : Q) : Q :=
  r0 h r i + lengthOf h r i amp.

Definition nx (h : Host) (r : Ring) (i : nat) : Q := Math_cos h (angleOf h r i).
Definition ny (h : Host) (r : Ring) (i : nat) : Q := Math_sin h (angleOf h r i).
Definition tx (h : Host) (r : Ring) (i : nat) : Q := - ny h r i.
Definition ty (h : Host) (r : Ring) (i : nat) : Q := nx h r i.

Definition x0 (h : Host) (r : Ring) (i : nat) : Q :=
  Math_cos h (angleOf h r i) * r0 h r i.
Definition y0 (h : Host) (r : Ring) (i : nat) : Q :=
  Math_sin h (angleOf h r i) * r0 h r i.
Definition x1 (h : Host) (r : Ring) (i : nat) (amp : Q) : Q :=
  Math_cos h (angleOf h r i) * r1 h r i amp.
Definition y1 (h : Host) (r : Ring) (i : nat) (amp : Q) : Q :=
  Math_sin h (angleOf h r i) * r1 h r i amp.

Definition mobileScatterBoost (r : Ring) : Q := if mobile r then 1.4 else 1.0.

Definition amp01 (r : Ring) (amp : Q) : Q :=
  let maxAmplitude := maxAmplitudeOf r in
  clamp (Qabs amp / (if Qeq_bool maxAmplitude 0 then 1 else maxAmplitude)) 0 1.

Definition radialScatterAmount (r : Ring) (amp : Q) : Q :=
  let radialScatterBase :=
    clamp (1.5 + amp01 r amp * 8 + loud r * 12) 1.5 15
    * mobileScatterBoost r in
  radialScatterBase * presence r * radialScatterMultiplier (cfg r).

Definition tangentialScatterAmount (r : Ring) (amp : Q) : Q :=
  let tangentialScatterBase :=
    clamp (2.0 + amp01 r amp * 10 + loud r * 16) 2 18
    * mobileScatterBoost r in
  tangentialScatterBase * presence r * tangentialScatterMultiplier (cfg r).

Definition seed (h : Host) (i d : nat) : Q :=
  hash01 (Math_sin h) (ofNat i * 97.31 + ofNat d * 31.77).
Definition seed2 (h : Host) (i d : nat) : Q :=
  hash01 (Math_sin h) (ofNat i * 11.13 + ofNat d * 73.91).

(** Placement [u] of dot [d] along its segment. *)
Definition uOf (h : Host) (r : Ring) (i d : nat) : Q :=
  let spacingRange := lerp 0.92 0.74 (presence r) in
  let spacingStart := lerp 0.04 0.18 (presence r) in
  let uBase :=
    spacingStart
    + spacingRange * (ofNat d / Qmax 1 (ofNat dotCount - 1)) in
  let uWobble := (seed h i d - 0.5) * 0.08 * presence r in
  clamp (uBase + uWobble) 0.01 0.99.

Definition idleRadialOffset (h : Host) (r : Ring) (i d : nat) : Q :=
  let phase :=
    hash01 (Math_sin h) (ofNat i * 137.5 + ofNat d * 23.7) * Math_PI h * 2 in
  let lo := if mobile r then 0.5 else 0.3 in
  let hi := if mobile r then 1.0 else 0.7 in
  let baseSpeed :=
    lo + hash01 (Math_sin h) (ofNat i * 67.3 + ofNat d * 41.9) * (hi - lo) in
  let speed := baseSpeed * idleSpeed (cfg r) in
  let amplitude :=
    2.5 + hash01 (Math_sin h) (ofNat i * 89.1 + ofNat d * 19.3) * 3.5 in
  Math_sin h (idleTime r * speed + phase) * amplitude.

Definition audioRadialScatter (h : Host) (r : Ring) (i : nat) (amp : Q)
  (d : nat) : Q :=
  (seed2 h i d - 0.5) * radialScatterAmount r amp * 0.55.

Definition radialScatter (h : Host) (r : Ring) (i : nat) (amp : Q) (d : nat)
  : Q :=
  lerp (idleRadialOffset h r i d) (audioRadialScatter h r i amp d) (presence r).

Definition tangentialScatter (h : Host) (r : Ring) (i : nat) (amp : Q)
  (d : nat) : Q :=
  (seed h i d - 0.5) * tangentialScatterAmount r amp.

Definition sizeOf (r : Ring) (amp : Q) : Q :=
  let mobileSizeBoost := if mobile r then 1.3 else 1.0 in
  let baseSizeIdle := 1.2 * mobileSizeBoost in
  let baseSizeAudio := 0.8 * mobileSizeBoost in
  let baseSize := lerp baseSizeIdle baseSizeAudio (presence r) in
  let sizeVariation :=
    (amp01 r amp * 2.2 + loud r * 1.8) * presence r * mobileSizeBoost in
  baseSize + sizeVariation.

(** Dot [d] of segment [i]. *)
Definition dotOf (h : Host) (r : Ring) (i : nat) (amp : Q) (d : nat) : Dot :=
  let u := uOf h r i d in
  mkDot
    (lerp (x0 h r i) (x1 h r i amp) u
     + nx h r i * radialScatter h r i amp d
     + tx h r i * tangentialScatter h r i amp d)
    (lerp (y0 h r i) (y1 h r i amp) u
     + ny h r i * radialScatter h r i amp d
     + ty h r i * tangentialScatter h r i amp d)
    (sizeOf r amp).

(** The dots drawn by the two nested loops, in drawing order. *)
Definition ringDots (h : Host) (r : Ring) (amps : list Q) : list Dot :=
  flat_map (fun i => map (dotOf h r i (nth i amps 0)) (seq 0 dotCount))
    (seq 0 (segs r)).

(** What one frame draws: the glow circle and the dots. *)
Record FrameGeometry := mkFrameGeometry {
  glowRadius : Q;
  dots : list Dot
}.

(** The fixed values of the frame that led to state [s']. *)
Definition ringOf (mob : bool) (c : Config) (inp : FrameInput)
  (s' : ScatterState) : Ring :=
  let baseRadius := baseRadiusOf mob (rectWidth inp) (rectHeight inp) in
  mkRing mob c (baseRadius * 1.25) (featLoudness (frameFeatures inp))
    (audioPresence s') (idleAnimationTime s') (segments s').

Definition drawFrame (h : Host) (v : Visualizer) (inp : FrameInput)
  : Visualizer * FrameGeometry :=
  let s' := stepState (isMobile v) (config v) inp (scatterState v) in
  (mkVisualizer (isMobile v) (config v) s',
   mkFrameGeometry (smoothedGlowRadius s')
     (ringDots h (ringOf (isMobile v) (config v) inp s') (lineAmplitude s'))).

(** *** Sessions: frames interleaved with calls of the setters *)

Inductive Event :=
| EvFrame (inp : FrameInput)
| EvSetSensitivity (value : Q)
| EvSetSmoothing (value : Q)
| EvSetIdleSpeed (value : Q)
| EvSetRadialScatter (value : Q)
| EvSetTangentialScatter (value : Q).

(** The state after an event; what a frame draws does not feed back. *)
Definition step (v : Visualizer) (e : Event) : Visualizer :=
  match e with
  | EvFrame inp =>
      mkVisualizer (isMobile v) (config v)
        (stepState (isMobile v) (config v) inp (scatterState v))
  | EvSetSensitivity value => setSensitivity v value
  | EvSetSmoothing value => setSmoothing v value
  | EvSetIdleSpeed value => setIdleSpeed v value
  | EvSetRadialScatter value => setRadialScatter v value
  | EvSetTangentialScatter value => setTangentialScatter v value
  end.

Definition run (v : Visualizer) (es : list Event) : Visualizer :=
  fold_left step es v.

End Visualizer.

(** ** Notions used to state the properties *)

Module Notions.

Definition zsum (l : list Z) : Z := fold_right Z.add 0%Z l.

(** Arithmetic mean of a non-empty list of samples. *)
Definition mean (l : list Z) : Q :=
  inject_Z (zsum l) / inject_Z (Z.of_nat (length l)).

(** The samples [freqArray[start .. end-1]] of band [i]. *)
Definition bandGroup (freqArray : list Z) (bandCount i : nat) : list Z :=
  let len := length freqArray in
  let bandSize := (len / bandCount)%nat in
  let start := AudioManager.bandStart bandSize i in
  let end_ := AudioManager.bandEnd len bandSize bandCount i in
  firstn (end_ - start) (skipn start freqArray).

(** A [Uint8Array] element. *)
Definition uint8 (s : Z) : Prop := (0 <= s <= 255)%Z.

(** [n] repetitions of the pair [0, 255]. *)
Fixpoint alternating (n : nat) : list Z :=
  match n with
  | O => []
  | S k => 0%Z :: 255%Z :: alternating k
  end.

(** Root mean square of the samples mapped to [(s - 128) / 128], over the
    reals. *)
Definition rootMeanSquare (l : list Z) : R :=
  sqrt (fold_right (fun s acc => (((IZR s - 128) / 128) ^ 2 + acc)%R) 0%R l
        / INR (length l)).

(** A stand-in for the host's math functions, to run the geometry on
    concrete frames. *)
Definition flatHost : Visualizer.Host :=
  Visualizer.mkHost (fun _ => 0) (fun _ => 1) (355 # 113).

(** A frame on an 800 x 600 canvas at clock [now]. *)
Definition frameAt (now : Q) (features : option Visualizer.Features)
  : Visualizer.FrameInput :=
  Visualizer.mkFrameInput 800 600 now features.

(** An event during which the raw audio detection is false. *)
Definition quiet (mob : bool) (e : Visualizer.Event) : bool :=
  match e with
  | Visualizer.EvFrame inp =>
      negb (Visualizer.hasAudioRaw mob (Visualizer.frameFeatures inp))
  | _ => true
  end.

(** Number of frames among the events. *)
Fixpoint frameCount (es : list Visualizer.Event) : nat :=
  match es with
  | [] => O
  | Visualizer.EvFrame _ :: es' => S (frameCount es')
  | _ :: es' => frameCount es'
  end.

(** The clock readings of the frames never go back, starting from
    [last]. *)
Fixpoint clockMonotone (last : Q) (es : list Visualizer.Event) : Prop :=
  match es with
  | [] => True
  | Visualizer.EvFrame inp :: es' =>
      last <= Visualizer.frameNow inp
      /\ clockMonotone (Visualizer.frameNow inp) es'
  | _ :: es' => clockMonotone last es'
  end.

(** The waveform of a frame, when there is one, holds [Uint8Array]
    elements. *)
Definition wellFormed (inp : Visualizer.FrameInput) : Prop :=
  match Visualizer.featTime (Visualizer.frameFeatures inp) with
  | Some t => Forall uint8 t
  | None => True
  end.

(** [maxAmplitude] of a frame. *)
Definition maxAmplitudeAt (mob : bool) (inp : Visualizer.FrameInput) : Q :=
  Visualizer.baseRadiusOf mob (Visualizer.rectWidth inp)
    (Visualizer.rectHeight inp) * 1.25 * 0.45.

(** The largest magnitude the amplitude target of a frame can take:
    [|sensitivity * maxAmplitude * mobileSensitivityBoost|]. *)
Definition targetBound (v : Visualizer.Visualizer)
  (inp : Visualizer.FrameInput) : Q :=
  Qabs (Visualizer.sensitivity (Visualizer.config v)
        * maxAmplitudeAt (Visualizer.isMobile v) inp
        * (if Visualizer.isMobile v then 1.3 else 1.0)).

(** Every frame of the session is well formed and has its target bound
    below [B]. *)
Fixpoint targetsWithin (B : Q) (v : Visualizer.Visualizer)
  (es : list Visualizer.Event) : Prop :=
  match es with
  | [] => True
  | e :: es' =>
      match e with
      | Visualizer.EvFrame inp => wellFormed inp /\ targetBound v inp <= B
      | _ => True
      end
      /\ targetsWithin B (Visualizer.step v e) es'
  end.

(** The features of a full-scale waveform: 1024 samples of 255, whose
    [computeRms] is 127/128. *)
Definition loudFeatures : Visualizer.Features :=
  Visualizer.mkFeatures (Some (repeat 255%Z 1024)) (127 # 128).

End Notions.

(** ** audioManager.js: the manager and its lifecycle *)

Module AudioSession.

(** [audioContext.state], for a context that is not closed. *)
Inductive ContextState := Running | Suspended.

(** The analyser node as [start] configures it. *)
Record Analyser := mkAnalyser {
  fftSize : nat;
  smoothingTimeConstant : Q
}.

Definition frequencyBinCount (a : Analyser) : nat := (fftSize a / 2)%nat.

(** The closure variables of [createAudioManager].  Of [source] and
    [mediaStream] the code only tests or clears the reference. *)
Record Manager := mkManager {
  audioContext : option ContextState;
  analyser : option Analyser;
  source : bool;
  mediaStream : bool
}.

Definition createAudioManager : Manager := mkManager None None false false.

(** What the browser does during one call of [start]: whether a suspended
    context resumes, whether [getUserMedia] exists, whether it resolves,
    whether [new AudioContext], [createMediaStreamSource] and
    [createAnalyser] return or throw, the state of the new context, and
    the result of the user-agent test. *)
Record StartEnv := mkStartEnv {
  resumeResolves : bool;
  hasGetUserMedia : bool;
  micGranted : bool;
  contextCreated : bool;
  sourceCreated : bool;
  analyserCreated : bool;
  newContextState : ContextState;
  envMobile : bool
}.

Inductive Outcome := Returned | Thrown.

(** [start], run to completion: the awaited calls are taken as steps of one
    transition.  The variables are assigned one after the other, so a call
    that throws half-way keeps the assignments made before it.  The last
    statements (setting [fftSize] to 1024 and the smoothing constant,
    connecting two nodes of the one context) have no failure case in the
    Web Audio interface. *)
Definition start (env : StartEnv) (m : Manager) : Manager * Outcome :=
  match audioContext m with
  | Some Suspended =>
      if resumeResolves env
      then (mkManager (Some Running) (analyser m) (source m) (mediaStream m),
            Returned)
      else (m, Thrown)
  | _ =>
      if negb (hasGetUserMedia env) then (m, Thrown)
      else if negb (micGranted env) then (m, Thrown)
      else
        let m1 := mkManager (audioContext m) (analyser m) (source m) true in
        if negb (contextCreated env) then (m1, Thrown)
        else
          let m2 :=
            mkManager (Some (newContextState env)) (analyser m1) (source m1)
              (mediaStream m1) in
          if negb (sourceCreated env) then (m2, Thrown)
          else
            let m3 :=
              mkManager (audioContext m2) (analyser m2) true
                (mediaStream m2) in
            if negb (analyserCreated env) then (m3, Thrown)
            else
              (mkManager (audioContext m3)
                 (Some (mkAnalyser 1024 (if envMobile env then 0.7 else 0.9)))
                 (source m3) (mediaStream m3),
               Returned)
  end.

Definition stop (m : Manager) : Manager := mkManager None None false false.

(** The bytes the analyser has for the current window. *)
Record AnalysisData := mkAnalysisData {
  byteFrequency : list Z;
  byteTimeDomain : list Z
}.

(** [new Uint8Array(n)] after [getByte...Data]: the first [n] bytes of
    the data, zeros where the data is shorter. *)
Definition fillBytes (n : nat) (data : list Z) : list Z :=
  firstn n data ++ repeat 0%Z (n - length data).

Definition getFrequencyData (m : Manager) (d : AnalysisData)
  : option (list Z) :=
  match analyser m with
  | None => None
  | Some a => Some (fillBytes (frequencyBinCount a) (byteFrequency d))
  end.

Definition getTimeDomainData (m : Manager) (d : AnalysisData)
  : option (list Z) :=
  match analyser m with
  | None => None
  | Some a => Some (fillBytes (fftSize a) (byteTimeDomain d))
  end.

(** The object returned by [getFeatures]. *)
Record Features := mkFeatures {
  freq : option (list Z);
  time : option (list Z);
  bands : option (list (option Q));
  loudness : option R
}.

Definition neutral : Features := mkFeatures None None None (Some 0%R).

Definition getFeatures (m : Manager) (d : AnalysisData) : Features :=
  match getFrequencyData m d, getTimeDomainData m d with
  | Some f, Some t =>
      mkFeatures (Some f) (Some t)
        (Some (AudioManager.computeBands f 5))
        (AudioManager.computeRms t)
  | _, _ => neutral
  end.

End AudioSession.

(** ** visualizer.js: start, stop and the animation loop *)

Module FrameLoop.

(** [running], the [loop] callbacks waiting in the
    [requestAnimationFrame] queue, whether [resizeCanvas] is registered
    for [resize] (registering the same listener twice registers it once),
    and the visualizer these drive. *)
Record Player := mkPlayer {
  running : bool;
  scheduled : nat;
  resizeListener : bool;
  vis : Visualizer.Visualizer
}.

Definition createPlayer (mobile : bool) (now : Q) : Player :=
  mkPlayer false 0 false (Visualizer.createVisualizer mobile now).

Definition start (p : Player) : Player :=
  mkPlayer true (S (scheduled p)) true (vis p).

Definition stop (p : Player) : Player :=
  mkPlayer false (scheduled p) false (vis p).

(** One call of [loop]; [inp] is what [drawFrame] reads during it. *)
Definition loop (inp : Visualizer.FrameInput) (p : Player) : Player :=
  if running p
  then mkPlayer (running p) (S (scheduled p)) (resizeListener p)
         (Visualizer.step (vis p) (Visualizer.EvFrame inp))
  else p.

(** One display refresh: the callbacks queued before it run in order, the
    [j]-th reading [inps j]; those they queue wait for the next one. *)
Definition animationFrame (inps : nat -> Visualizer.FrameInput) (p : Player)
  : Player :=
  fold_left (fun q j => loop (inps j) q) (seq 0 (scheduled p))
    (mkPlayer (running p) 0 (resizeListener p) (vis p)).

Inductive LoopEvent :=
| Start
| Stop
| Refresh (inps : nat -> Visualizer.FrameInput).

Definition react (p : Player) (e : LoopEvent) : Player :=
  match e with
  | Start => start p
  | Stop => stop p
  | Refresh inps => animationFrame inps p
  end.

Definition play (p : Player) (es : list LoopEvent) : Player :=
  fold_left react es p.

End FrameLoop.

(** ** Notions for sessions *)

Module SessionNotions.

(** A call of the manager's [start] or [stop]. *)
Inductive ManagerCall :=
| CallStart (env : AudioSession.StartEnv)
| CallStop.

Definition call (m : AudioSession.Manager) (c : ManagerCall)
  : AudioSession.Manager :=
  match c with
  | CallStart env => fst (AudioSession.start env m)
  | CallStop => AudioSession.stop m
  end.

Definition calls (m : AudioSession.Manager) (cs : list ManagerCall)
  : AudioSession.Manager :=
  fold_left call cs m.

(** The snapshot [g] read by the visualizer holds the [time] and
    [loudness] of the manager's snapshot [f]. *)
Definition sees (g : Visualizer.Features) (f : AudioSession.Features) : Prop :=
  Visualizer.time g = AudioSession.time f
  /\ AudioSession.loudness f = Some (Q2R (Visualizer.loudness g)).

(** The closure variables of the manager are set in the order in which
    [start] assigns them: an analyser (always of FFT size 1024) comes with
    a source, a source with a context, a context with a stream. *)
Definition ordered (m : AudioSession.Manager) : Prop :=
  (forall a, AudioSession.analyser m = Some a ->
             AudioSession.fftSize a = 1024%nat
             /\ AudioSession.source m = true)
  /\ (AudioSession.source m = true -> AudioSession.audioContext m <> None)
  /\ (AudioSession.audioContext m <> None ->
      AudioSession.mediaStream m = true).

(** A browser in which every step of [start] succeeds. *)
Definition grantingEnv : AudioSession.StartEnv :=
  AudioSession.mkStartEnv true true true true true true
    AudioSession.Running false.

End SessionNotions.

(** ** Notions for the visualizer's sessions *)

Module FrameNotions.

(** The sample values that count as no variation:
    [|s / 255 - 0.5| <= timeVariationThreshold]. *)
Definition stillLow (mob : bool) : Z := if mob then 120%Z else 115%Z.
Definition stillHigh (mob : bool) : Z := if mob then 135%Z else 140%Z.


(** Every frame of the session is drawn on a canvas of base radius [b],
    with [loudness * sensitivity] between 0 and [K]. *)
Fixpoint steadyGlow (b K : Q) (v : Visualizer.Visualizer)
  (es : list Visualizer.Event) : Prop :=
  match es with
  | [] => True
  | e :: es' =>
      match e with
      | Visualizer.EvFrame inp =>
          Visualizer.baseRadiusOf (Visualizer.isMobile v)
            (Visualizer.rectWidth inp) (Visualizer.rectHeight inp) == b
          /\ 0 <= Visualizer.featLoudness (Visualizer.frameFeatures inp)
                  * Visualizer.sensitivity (Visualizer.config v)
             <= K
      | _ => True
      end
      /\ steadyGlow b K (Visualizer.step v e) es'
  end.




End FrameNotions.

(** ** The rounding-sensitive parts on binary64 doubles *)

Module Doubles.

Import PrimFloat.
Local Open Scope float_scope.
#[local] Set Warnings "-inexact-float".

Definition lerp (a b t : float) : float := a + (b - a) * t.

Definition enterSpeed (mob : bool) : float := if mob then 0.15 else 0.08.
Definition exitSpeed (mob : bool) : float := if mob then 0.08 else 0.04.

(** The new value of [scatterState.audioPresence]; [hasAudioRaw] is the
    outcome of the raw detection of the frame. *)
Definition nextPresence (mob hasAudioRaw : bool) (presence : float) : float :=
  let targetPresence := if hasAudioRaw then 1.0 else 0.0 in
  let transitionSpeed :=
    if presence <? targetPresence then enterSpeed mob else exitSpeed mob in
  lerp presence targetPresence transitionSpeed.

(** The presence after [n] frames with the same outcome of the
    detection. *)
Fixpoint frames (n : nat) (mob hasAudioRaw : bool) (p : float) : float :=
  match n with
  | O => p
  | S k => frames k mob hasAudioRaw (nextPresence mob hasAudioRaw p)
  end.

(** [hash01]; [Math.sin] and [Math.floor] are the host's. *)
Definition hash01 (Math_sin Math_floor : float -> float) (x : float) : float :=
  let s := Math_sin (x * 12.9898 + 78.233) * 43758.5453 in
  s - Math_floor s.

(** An array index or length as a double. *)
Definition ofNat (n : nat) : float := of_uint63 (Uint63.of_Z (Z.of_nat n)).

(** [Math.floor] of a finite double, as an integer. *)
Definition floorZ (f : float) : option Z :=
  match FloatOps.Prim2SF f with
  | SpecFloat.S754_zero _ => Some 0%Z
  | SpecFloat.S754_finite s m e =>
      let sm := if s then Z.neg m else Z.pos m in
      Some (if (0 <=? e)%Z then sm * 2 ^ e else sm / 2 ^ (- e))%Z
  | _ => None
  end.

(** [Math.floor(t * timeLength) % timeLength] for [t = i / segments]. *)
Definition sampleIndex (segs len i : nat) : option Z :=
  let t := ofNat i / ofNat segs in
  match floorZ (t * ofNat len) with
  | Some k => Some (k mod Z.of_nat len)%Z
  | None => None
  end.

(** The byte [time[idx]] read for segment [i], when the waveform is
    non-empty and the index falls inside it. *)
Definition segmentByte (segs : nat) (time : list Z) (i : nat) : option Z :=
  if (0 <? length time)%nat then
    match sampleIndex segs (length time) i with
    | Some idx => if (idx <? 0)%Z then None else nth_error time (Z.to_nat idx)
    | None => None
    end
  else None.

End Doubles.

(** [hash01] on exact numbers, with the range of doubles: the product
    [x * 12.9898] is an infinity once its magnitude reaches
    [2^1024 - 2^970], the sine of an infinity is [NaN], and so is the
    result ([None]). *)

Module Seeds.



End Seeds.

(** ** Notions for the properties on doubles *)

Module DoubleNotions.

Import PrimFloat.
Local Open Scope float_scope.
#[local] Set Warnings "-abstract-large-number".

(** The double [m * 2^e]. *)
Definition dyadic (m : positive) (e : Z) : float :=
  FloatOps.SF2Prim (SpecFloat.S754_finite false m e).



(** On each of the next [n] quiet frames the presence lies in [(0, 1]]
    and the frame makes it strictly smaller. *)
Fixpoint fallsFor (n : nat) (mob : bool) (p : float) : bool :=
  match n with
  | O => true
  | S k =>
      let p' := Doubles.nextPresence mob false p in
      (p' <? p) && (p' <=? p) && (0 <? p) && (p <=? 1) && fallsFor k mob p'
  end.

(** On each of the next [n] audible frames the presence lies in [[0, 1)]
    and the frame makes it strictly larger. *)
Fixpoint risesFor (n : nat) (mob : bool) (p : float) : bool :=
  match n with
  | O => true
  | S k =>
      let p' := Doubles.nextPresence mob true p in
      (p <? p') && (p <=? p') && (0 <=? p) && (p <? 1) && risesFor k mob p'
  end.

(** The index read on doubles is [floor (i * len / segs)]. *)
Definition indexAgrees (segs len i : nat) : bool :=
  match Doubles.sampleIndex segs len i with
  | Some idx => (idx =? Z.of_nat (i * len / segs))%Z
  | None => false
  end.

(** Frames of strict change, and the value reached, for a decay from 1
    and for a rise from 0. *)
Definition decayFrames (mob : bool) : nat := if mob then 8905 else 18172.
Definition decayFloor (mob : bool) : float :=
  if mob then dyadic 6 (-1074) else dyadic 12 (-1074).
Definition riseFrames (mob : bool) : nat := if mob then 218 else 417.
Definition riseCeiling (mob : bool) : float :=
  if mob then dyadic 9007199254740989 (-53)
  else dyadic 9007199254740986 (-53).

End DoubleNotions.

(** * Properties *)

Import Notions.

(** ** computeBands *)

Section ComputeBands.

Import AudioManager.

Lemma sumRange_from (freqArray : list Z) (n start : nat) (acc : Z) :
  (start + n <= length freqArray)%nat ->
  fold_left
    (fun sum j =>
       match sum, nth_error freqArray j with
       | Some s, Some x => Some (s + x)%Z
       | _, _ => None
       end)
    (seq start n) (Some acc)
  = Some (acc + zsum (firstn n (skipn start freqArray)))%Z.
Proof.
  revert start acc.
  induction n as [|n IH]; intros start acc Hle.
  - simpl. now rewrite Z.add_0_r.
  - simpl seq. simpl fold_left.
    destruct (nth_error freqArray start) as [x|] eqn:Hx.
    + rewrite IH by lia.
      pose proof (hd_error_skipn start freqArray) as Hhd.
      rewrite Hx in Hhd.
      destruct (skipn start freqArray) as [|y rest] eqn:Hsk;
        [discriminate|].
      simpl in Hhd. injection Hhd as ->.
      replace (skipn (S start) freqArray) with rest.
      * simpl. f_equal. lia.
      * change (S start) with (1 + start)%nat.
        rewrite <- skipn_skipn, Hsk. reflexivity.
    + apply nth_error_None in Hx. lia.
Qed.

Lemma sumRange_slice (freqArray : list Z) (start end_ : nat) :
  (start <= end_ <= length freqArray)%nat ->
  sumRange freqArray start end_
  = Some (zsum (firstn (end_ - start) (skipn start freqArray))).
Proof.
  intros H. unfold sumRange.
  rewrite sumRange_from by lia. reflexivity.
Qed.

Lemma band_bounds (len bandCount i : nat) :
  (i < bandCount)%nat ->
  (bandStart (len / bandCount) i
   <= bandEnd len (len / bandCount) bandCount i <= len)%nat.
Proof.
  intros Hi. unfold bandEnd, bandStart.
  pose proof (Nat.Div0.mul_div_le len bandCount) as Hm.
  destruct (Nat.eqb_spec i (bandCount - 1)) as [->|Hne].
  - split; [|lia]. nia.
  - split; [lia|]. nia.
Qed.

Lemma orOne_pos (n : nat) : (0 < Js.orOne n)%nat.
Proof. destruct n; simpl; lia. Qed.

Lemma div_nat_some (a : Q) (n : nat) :
  (0 < n)%nat ->
  Js.div a (inject_Z (Z.of_nat n)) = Some (a / inject_Z (Z.of_nat n)).
Proof.
  intros Hn. unfold Js.div.
  destruct (Qeq_bool (inject_Z (Z.of_nat n)) 0) eqn:E; [|reflexivity].
  apply Qeq_bool_iff in E. unfold Qeq in E. simpl in E. lia.
Qed.

Lemma bandValue_group (freqArray : list Z) (bandCount i : nat) :
  (i < bandCount)%nat ->
  bandValue freqArray bandCount i
  = Some (inject_Z (zsum (bandGroup freqArray bandCount i))
          / inject_Z (Z.of_nat
                        (Js.orOne (length (bandGroup freqArray bandCount i))))).
Proof.
  intros Hi. unfold bandValue, bandGroup.
  pose proof (band_bounds (length freqArray) bandCount i Hi) as Hb.
  cbv zeta.
  rewrite sumRange_slice by exact Hb.
  rewrite div_nat_some by apply orOne_pos.
  rewrite length_firstn, length_skipn.
  rewrite Nat.min_l by lia. reflexivity.
Qed.

Lemma groups_prefix (l : list Z) (size k : nat) :
  concat (map (fun i => firstn size (skipn (i * size) l)) (seq 0 k))
  ++ skipn (k * size) l = l.
Proof.
  induction k as [|k IH].
  - reflexivity.
  - rewrite seq_S, map_app, concat_app. simpl.
    rewrite app_nil_r, <- app_assoc.
    rewrite <- (skipn_skipn size (k * size) l).
    rewrite firstn_skipn. exact IH.
Qed.

Lemma bandGroup_inner (freqArray : list Z) (bandCount i : nat) :
  (i < bandCount - 1)%nat ->
  bandGroup freqArray bandCount i
  = firstn (length freqArray / bandCount)
      (skipn (i * (length freqArray / bandCount)) freqArray).
Proof.
  intros Hi. unfold bandGroup, bandEnd, bandStart.
  destruct (Nat.eqb_spec i (bandCount - 1)) as [E|_]; [lia|].
  f_equal. lia.
Qed.

Lemma bandGroup_last (freqArray : list Z) (bandCount : nat) :
  bandGroup freqArray bandCount (bandCount - 1)
  = skipn ((bandCount - 1) * (length freqArray / bandCount)) freqArray.
Proof.
  unfold bandGroup, bandEnd, bandStart.
  rewrite Nat.eqb_refl.
  apply firstn_all2. rewrite length_skipn. lia.
Qed.

Lemma bandGroups_concat (freqArray : list Z) (bandCount : nat) :
  (0 < bandCount)%nat ->
  concat (map (bandGroup freqArray bandCount) (seq 0 bandCount)) = freqArray.
Proof.
  intros Hpos.
  replace bandCount with (S (bandCount - 1)) at 2 by lia.
  rewrite seq_S, map_app, concat_app. simpl. rewrite app_nil_r.
  rewrite bandGroup_last.
  rewrite (map_ext_in _
             (fun i => firstn (length freqArray / bandCount)
                         (skipn (i * (length freqArray / bandCount)) freqArray))).
  - apply groups_prefix.
  - intros i Hin. apply in_seq in Hin. apply bandGroup_inner. lia.
Qed.

(** C1: for a positive [bandCount], [computeBands] returns [bandCount]
    values; band [i] covers the contiguous group of
    [floor(N / bandCount)] samples starting at [i * floor(N / bandCount)],
    except the last band, whose group runs to the end of the spectrum; the
    groups concatenated are the spectrum, so their sizes add up to [N];
    and each band's value is the mean of its group (0 for an empty
    group). *)
Theorem computeBands_partition (freqArray : list Z) (bandCount : nat) :
  (0 < bandCount)%nat ->
  let N := length freqArray in
  let size := (N / bandCount)%nat in
  length (computeBands freqArray bandCount) = bandCount
  /\ (forall i, (i < bandCount - 1)%nat ->
        bandGroup freqArray bandCount i
        = firstn size (skipn (i * size) freqArray)
        /\ length (bandGroup freqArray bandCount i) = size)
  /\ bandGroup freqArray bandCount (bandCount - 1)
     = skipn ((bandCount - 1) * size) freqArray
  /\ concat (map (bandGroup freqArray bandCount) (seq 0 bandCount))
     = freqArray
  /\ list_sum (map (fun i => length (bandGroup freqArray bandCount i))
                 (seq 0 bandCount)) = N
  /\ (forall i, (i < bandCount)%nat ->
        nth_error (computeBands freqArray bandCount) i
        = Some (Some (match bandGroup freqArray bandCount i with
                      | [] => 0
                      | g => mean g
                      end))).
Proof.
  intros Hpos N size.
  pose proof (Nat.Div0.mul_div_le (length freqArray) bandCount) as Hm.
  fold N size in Hm.
  split; [|split; [|split; [|split; [|split]]]].
  - unfold computeBands. now rewrite length_map, length_seq.
  - intros i Hi. rewrite bandGroup_inner by exact Hi. fold N size.
    split; [reflexivity|].
    rewrite length_firstn, length_skipn. fold N.
    apply Nat.min_l. nia.
  - apply bandGroup_last.
  - now apply bandGroups_concat.
  - rewrite <- (map_map (bandGroup freqArray bandCount) (@length Z)).
    rewrite <- length_concat.
    now rewrite bandGroups_concat.
  - intros i Hi. unfold computeBands.
    rewrite nth_error_map, nth_error_seq.
    destruct (Nat.ltb_spec i bandCount) as [_|Hge]; [|lia].
    simpl. rewrite bandValue_group by exact Hi.
    destruct (bandGroup freqArray bandCount i) as [|x g]; reflexivity.
Qed.

(** The theorem applied to a spectrum of seven samples cut in three. *)
Lemma computeBands_partition_witness :
  length (computeBands [1; 2; 3; 4; 5; 6; 7]%Z 3) = 3%nat
  /\ computeBands [1; 2; 3; 4; 5; 6; 7]%Z 3
     = [Some (inject_Z 3 / inject_Z 2); Some (inject_Z 7 / inject_Z 2);
        Some (inject_Z 18 / inject_Z 3)].
Proof.
  split.
  - apply (computeBands_partition [1; 2; 3; 4; 5; 6; 7]%Z 3). lia.
  - reflexivity.
Defined.

(** C2, as stated, fails: with one sample of value 10 and two bands the
    last band is 10, not 0. *)
Lemma computeBands_oversized_not_all_zero :
  ~ (forall (freqArray : list Z) (bandCount : nat),
       (length freqArray < bandCount)%nat ->
       forall b, In b (computeBands freqArray bandCount) ->
                 exists q, b = Some q /\ q == 0).
Proof.
  intros H.
  destruct (H [10%Z] 2%nat) with (b := Some (inject_Z 10 / inject_Z 1))
    as [q [Hq Hz]].
  - simpl. lia.
  - right. left. reflexivity.
  - injection Hq as <-. discriminate Hz.
Qed.

(** C2, amended: when [bandCount] exceeds the spectrum length, every band
    is a finite number (no zero divisor, no read outside the array), all
    bands but the last are 0, and the last band is the sum of the whole
    spectrum over its length (over 1 for the empty spectrum). *)
Theorem computeBands_oversized (freqArray : list Z) (bandCount : nat) :
  (length freqArray < bandCount)%nat ->
  length (computeBands freqArray bandCount) = bandCount
  /\ (forall i, (i < bandCount - 1)%nat ->
        nth_error (computeBands freqArray bandCount) i = Some (Some 0))
  /\ nth_error (computeBands freqArray bandCount) (bandCount - 1)
     = Some (Some (inject_Z (zsum freqArray)
                   / inject_Z (Z.of_nat (Js.orOne (length freqArray))))).
Proof.
  intros Hlt.
  assert (Hsize : (length freqArray / bandCount = 0)%nat)
    by now apply Nat.div_small.
  assert (Hnth : forall i, (i < bandCount)%nat ->
            nth_error (computeBands freqArray bandCount) i
            = Some (bandValue freqArray bandCount i)).
  { intros i Hi. unfold computeBands.
    rewrite nth_error_map, nth_error_seq.
    destruct (Nat.ltb_spec i bandCount) as [_|Hge]; [|lia]. reflexivity. }
  split; [|split].
  - unfold computeBands. now rewrite length_map, length_seq.
  - intros i Hi. rewrite Hnth by lia.
    rewrite bandValue_group by lia.
    rewrite bandGroup_inner by exact Hi.
    rewrite Hsize. reflexivity.
  - rewrite Hnth by lia.
    rewrite bandValue_group by lia.
    rewrite bandGroup_last, Hsize, Nat.mul_0_r. reflexivity.
Qed.

(** The amended statement on one sample and three bands. *)
Lemma computeBands_oversized_witness :
  computeBands [10%Z] 3 = [Some 0; Some 0; Some 10]
  /\ nth_error (computeBands [10%Z] 3) 2
     = Some (Some (inject_Z (zsum [10%Z])
                   / inject_Z (Z.of_nat (Js.orOne (length [10%Z]))))).
Proof.
  split.
  - reflexivity.
  - apply (computeBands_oversized [10%Z] 3). simpl. lia.
Defined.

End ComputeBands.

(** ** computeRms *)

Section ComputeRms.

Import AudioManager.

Lemma Q2R_inject_Z (z : Z) : Q2R (inject_Z z) = IZR z.
Proof. unfold Q2R, inject_Z. simpl. lra. Qed.

Lemma Q2R_centered (s : Z) : Q2R (centered s) = ((IZR s - 128) / 128)%R.
Proof.
  unfold centered.
  rewrite Q2R_div by discriminate.
  rewrite Q2R_minus, Q2R_inject_Z.
  change 128 with (inject_Z 128). rewrite Q2R_inject_Z. reflexivity.
Qed.

Lemma sumSquares_from (l : list Z) (acc : Q) :
  Q2R (fold_left (fun a s => let v := centered s in a + v * v) l acc)
  = (Q2R acc
     + fold_right (fun s a => (((IZR s - 128) / 128) ^ 2 + a)%R) 0%R l)%R.
Proof.
  revert acc. induction l as [|s l IH]; intros acc; simpl fold_left.
  - simpl. lra.
  - rewrite IH. cbv zeta.
    rewrite Q2R_plus, Q2R_mult, Q2R_centered. simpl. lra.
Qed.

Lemma sumSquares_real (l : list Z) :
  Q2R (sumSquares l)
  = fold_right (fun s a => (((IZR s - 128) / 128) ^ 2 + a)%R) 0%R l.
Proof.
  unfold sumSquares. rewrite sumSquares_from.
  change (Q2R 0) with (Q2R (inject_Z 0)). rewrite Q2R_inject_Z. lra.
Qed.

Lemma meanSquare_cons (s : Z) (l : list Z) :
  meanSquare (s :: l)
  = Some (sumSquares (s :: l) / inject_Z (Z.of_nat (length (s :: l)))).
Proof.
  unfold meanSquare. apply div_nat_some. simpl. lia.
Qed.

Lemma computeRms_cons (s : Z) (l : list Z) :
  computeRms (s :: l) = Some (rootMeanSquare (s :: l)).
Proof.
  unfold computeRms. rewrite meanSquare_cons.
  unfold rootMeanSquare. f_equal. f_equal.
  rewrite Q2R_div.
  - rewrite sumSquares_real, Q2R_inject_Z, <- INR_IZR_INZ. reflexivity.
  - intros E. unfold Qeq in E. simpl in E. lia.
Qed.

Lemma squares_nonneg (l : list Z) :
  (0 <= fold_right (fun s a => (((IZR s - 128) / 128) ^ 2 + a)%R) 0%R l)%R.
Proof.
  induction l as [|s l IH]; simpl.
  - lra.
  - set (v := ((IZR s - 128) / 128)%R).
    set (rest := fold_right _ _ _) in *. nra.
Qed.

Lemma squares_le_length (l : list Z) :
  Forall uint8 l ->
  (fold_right (fun s a => (((IZR s - 128) / 128) ^ 2 + a)%R) 0%R l
   <= INR (length l))%R.
Proof.
  induction 1 as [|s l [Hlo Hhi] _ IH].
  - simpl. lra.
  - change (length (s :: l)) with (S (length l)). rewrite S_INR.
    cbn [fold_right].
    apply IZR_le in Hlo, Hhi.
    assert ((((IZR s - 128) / 128) ^ 2 <= 1)%R) by nra.
    lra.
Qed.

Lemma rootMeanSquare_range (s : Z) (l : list Z) :
  Forall uint8 (s :: l) ->
  (0 <= rootMeanSquare (s :: l) <= 1)%R.
Proof.
  intros Hall. unfold rootMeanSquare. split; [apply sqrt_pos|].
  rewrite <- sqrt_1. apply sqrt_le_1_alt.
  pose proof (squares_le_length _ Hall) as Hle.
  assert (Hpos : (0 < INR (length (s :: l)))%R)
    by (apply lt_0_INR; simpl; lia).
  apply (Rmult_le_reg_r (INR (length (s :: l)))); [exact Hpos|].
  unfold Rdiv. rewrite Rmult_assoc, Rinv_l by lra. lra.
Qed.

Lemma squares_all_128 (n : nat) :
  fold_right (fun s a => (((IZR s - 128) / 128) ^ 2 + a)%R) 0%R
    (repeat 128%Z n) = 0%R.
Proof.
  induction n as [|n IH]; cbn [repeat fold_right].
  - reflexivity.
  - rewrite IH. lra.
Qed.

Lemma squares_alternating (n : nat) :
  fold_right (fun s a => (((IZR s - 128) / 128) ^ 2 + a)%R) 0%R
    (alternating n)
  = (INR n * (32513 / 16384))%R.
Proof.
  induction n as [|n IH].
  - simpl. lra.
  - rewrite S_INR. cbn [alternating fold_right].
    rewrite IH. lra.
Qed.

Lemma length_alternating (n : nat) : length (alternating n) = (2 * n)%nat.
Proof. induction n as [|n IH]; simpl; [reflexivity|]. rewrite IH. lia. Qed.

Lemma rootMeanSquare_alternating (n : nat) :
  (0 < n)%nat ->
  rootMeanSquare (alternating n) = sqrt (32513 / 32768).
Proof.
  intros Hn. unfold rootMeanSquare.
  rewrite squares_alternating, length_alternating, mult_INR.
  f_equal. simpl INR.
  assert (Hpos : (0 < INR n)%R) by now apply lt_0_INR.
  field. lra.
Qed.

(** C3: on a non-empty waveform of samples in [0..255], [computeRms] is the
    root mean square of the samples mapped to [(s - 128) / 128], and lies in
    [[0, 1]]; on a waveform of 128s it is exactly 0; on an alternating
    0/255 waveform it is within 0.01 of 1. *)
Theorem computeRms_unit_range :
  (forall timeArray : list Z,
      timeArray <> [] -> Forall uint8 timeArray ->
      computeRms timeArray = Some (rootMeanSquare timeArray)
      /\ (0 <= rootMeanSquare timeArray <= 1)%R)
  /\ (forall n : nat, (0 < n)%nat ->
        computeRms (repeat 128%Z n) = Some 0%R)
  /\ (forall n : nat, (0 < n)%nat ->
        exists r : R, computeRms (alternating n) = Some r
                      /\ (0.99 < r < 1)%R).
Proof.
  split; [|split].
  - intros [|s l] Hne Hall; [contradiction|].
    split; [apply computeRms_cons | now apply rootMeanSquare_range].
  - intros [|n] Hn; [lia|].
    cbn [repeat]. rewrite computeRms_cons. f_equal.
    unfold rootMeanSquare.
    change (128%Z :: repeat 128%Z n) with (repeat 128%Z (S n)).
    rewrite squares_all_128.
    unfold Rdiv. rewrite Rmult_0_l. apply sqrt_0.
  - intros [|n] Hn; [lia|].
    exists (rootMeanSquare (alternating (S n))). split.
    + cbn [alternating]. apply computeRms_cons.
    + rewrite rootMeanSquare_alternating by lia. split.
      * rewrite <- (sqrt_square 0.99) by lra.
        apply sqrt_lt_1_alt. lra.
      * rewrite <- sqrt_1. apply sqrt_lt_1_alt. lra.
Qed.

(** The first part on the waveform [0, 255, 128]. *)
Lemma computeRms_unit_range_witness :
  computeRms [0; 255; 128]%Z = Some (rootMeanSquare [0; 255; 128]%Z)
  /\ (0 <= rootMeanSquare [0; 255; 128]%Z <= 1)%R.
Proof.
  apply (proj1 computeRms_unit_range [0; 255; 128]%Z).
  - discriminate.
  - repeat constructor; unfold uint8; lia.
Defined.

(** C9: on a waveform with at least one sample the divisor [len] is not
    zero and [computeRms] returns a non-negative real; the divisor is zero
    exactly for the empty waveform, the only input with no finite
    result. *)
Theorem computeRms_defined :
  (forall timeArray : list Z,
      timeArray <> [] ->
      ~ inject_Z (Z.of_nat (length timeArray)) == 0
      /\ exists r : R, computeRms timeArray = Some r /\ (0 <= r)%R)
  /\ (forall timeArray : list Z,
        inject_Z (Z.of_nat (length timeArray)) == 0 <-> timeArray = [])
  /\ (forall timeArray : list Z,
        computeRms timeArray = None <-> timeArray = []).
Proof.
  assert (Hden : forall timeArray : list Z,
             inject_Z (Z.of_nat (length timeArray)) == 0 <-> timeArray = []).
  { intros [|s l]; split; intros H; try reflexivity; discriminate. }
  split; [|split].
  - intros [|s l] Hne; [contradiction|]. split.
    + intros E. apply Hden in E. discriminate.
    + exists (rootMeanSquare (s :: l)). split.
      * apply computeRms_cons.
      * apply sqrt_pos.
  - exact Hden.
  - intros [|s l]; split; intros H; try reflexivity; discriminate.
Qed.

(** The first part on a one-sample waveform. *)
Lemma computeRms_defined_witness :
  ~ inject_Z (Z.of_nat (length [7%Z])) == 0
  /\ exists r : R, computeRms [7%Z] = Some r /\ (0 <= r)%R.
Proof.
  apply (proj1 computeRms_defined [7%Z]). discriminate.
Defined.

Lemma squares_all_255 (n : nat) :
  fold_right (fun s a => (((IZR s - 128) / 128) ^ 2 + a)%R) 0%R
    (repeat 255%Z n)
  = (INR n * (127 / 128 * (127 / 128)))%R.
Proof.
  induction n as [|n IH].
  - simpl. lra.
  - rewrite S_INR. cbn [repeat fold_right]. rewrite IH. lra.
Qed.

Lemma computeRms_all_255 (n : nat) :
  computeRms (repeat 255%Z (S n)) = Some (Q2R (127 # 128)).
Proof.
  change (repeat 255%Z (S n)) with (255%Z :: repeat 255%Z n).
  rewrite computeRms_cons. f_equal.
  change (255%Z :: repeat 255%Z n) with (repeat 255%Z (S n)).
  unfold rootMeanSquare.
  rewrite squares_all_255, repeat_length.
  assert (Hpos : (0 < INR (S n))%R) by (apply lt_0_INR; lia).
  replace (INR (S n) * (127 / 128 * (127 / 128)) / INR (S n))%R
    with (127 / 128 * (127 / 128))%R by (field; lra).
  rewrite sqrt_square by lra.
  unfold Q2R. simpl. lra.
Qed.

(** The loudness that goes with a waveform of 1024 samples of 255. *)
Lemma computeRms_full_scale :
  computeRms (repeat 255%Z 1024) = Some (Q2R (127 # 128)).
Proof. exact (computeRms_all_255 1023). Qed.

End ComputeRms.

(** ** hash01 *)

Section Hash.

Import Util.

Variable Math_sin : Q -> Q.

Lemma fractional_part_range (s : Q) :
  0 <= s - inject_Z (Qfloor s) /\ s - inject_Z (Qfloor s) < 1.
Proof.
  pose proof (Qfloor_le s) as Hlo.
  pose proof (Qlt_floor s) as Hhi.
  rewrite inject_Z_plus in Hhi.
  change (inject_Z 1) with 1 in Hhi.
  split; lra.
Qed.

End Hash.

(** ** hash01 and the range of doubles *)

Section HashRange.

Import PrimFloat.
#[local] Set Warnings "-inexact-float".

Variable Math_sin : Q -> Q.





(** The bounds of the theorem below on doubles: at [1.38e307] the argument
    of the sine is finite, at [1.39e307] the product is already
    [+Infinity]. *)
Lemma seed_overflow_on_doubles :
  is_finite (1.38e307 * 12.9898 + 78.233)%float = true
  /\ is_finite (-1.38e307 * 12.9898 + 78.233)%float = true
  /\ (1.39e307 * 12.9898)%float = infinity
  /\ (-1.39e307 * 12.9898)%float = neg_infinity.
Proof. vm_compute. repeat split; reflexivity. Qed.


End HashRange.


(** ** Dot displacement *)

Section DotScatter.

Import Util Visualizer.

Variable h : Host.

Lemma lerp_blend (a b t : Q) : lerp a b t == (1 - t) * a + t * b.
Proof. unfold lerp. ring. Qed.

Lemma tangentialScatter_idle (r : Ring) (i : nat) (amp : Q) (d : nat) :
  presence r == 0 -> tangentialScatter h r i amp d == 0.
Proof.
  intros Hp. unfold tangentialScatter, tangentialScatterAmount.
  cbv zeta.
  generalize (seed h i d - 0.5).
  generalize (clamp (2.0 + amp01 r amp * 10 + loud r * 16) 2 18
              * mobileScatterBoost r).
  generalize (tangentialScatterMultiplier (cfg r)).
  intros m b a. rewrite Hp. ring.
Qed.

Lemma ringDots_inv (r : Ring) (amps : list Q) (dot : Dot) :
  In dot (ringDots h r amps) ->
  exists i d : nat,
    (i < segs r)%nat /\ (d < dotCount)%nat
    /\ dot = dotOf h r i (nth i amps 0) d.
Proof.
  unfold ringDots. intros Hin.
  apply in_flat_map in Hin. destruct Hin as [i [Hi Hin]].
  apply in_map_iff in Hin. destruct Hin as [d [Hd Hin]].
  apply in_seq in Hi. apply in_seq in Hin.
  exists i, d. repeat split; try lia. now symmetry.
Qed.

Lemma drawFrame_dots (v : Visualizer) (inp : FrameInput) :
  dots (snd (drawFrame h v inp))
  = ringDots h
      (ringOf (isMobile v) (config v) inp
         (scatterState (fst (drawFrame h v inp))))
      (lineAmplitude (scatterState (fst (drawFrame h v inp)))).
Proof. reflexivity. Qed.

(** C8: every dot drawn by a frame sits at its base placement
    [lerp(x0, x1, u), lerp(y0, y1, u)] plus [radialScatter] along the
    segment axis and [tangentialScatter] across it; [radialScatter] is the
    blend [(1 - p) * idle + p * audio] of the idle oscillation and the audio
    scatter by the frame's [audioPresence] [p]; and when [p] is 0 the
    tangential displacement is 0, so the dot is displaced by the idle
    oscillation alone. *)
Theorem dot_scatter_blend (v : Visualizer) (inp : FrameInput) (dot : Dot) :
  let s' := scatterState (fst (drawFrame h v inp)) in
  let r := ringOf (isMobile v) (config v) inp s' in
  let p := audioPresence s' in
  In dot (dots (snd (drawFrame h v inp))) ->
  exists i d : nat,
    (i < segments s')%nat /\ (d < dotCount)%nat /\
    let amp := nth i (lineAmplitude s') 0 in
    let idle := idleRadialOffset h r i d in
    let audio := audioRadialScatter h r i amp d in
    let radial := radialScatter h r i amp d in
    let tangential := tangentialScatter h r i amp d in
    let bx := lerp (x0 h r i) (x1 h r i amp) (uOf h r i d) in
    let by_ := lerp (y0 h r i) (y1 h r i amp) (uOf h r i d) in
    radial == (1 - p) * idle + p * audio
    /\ px dot == bx + nx h r i * radial + tx h r i * tangential
    /\ py dot == by_ + ny h r i * radial + ty h r i * tangential
    /\ (p == 0 ->
        tangential == 0
        /\ px dot == bx + nx h r i * idle
        /\ py dot == by_ + ny h r i * idle).
Proof.
  intros s' r p Hin.
  rewrite drawFrame_dots in Hin. fold s' r in Hin.
  destruct (ringDots_inv r (lineAmplitude s') dot Hin)
    as [i [d [Hi [Hd Hdot]]]].
  exists i, d. split; [exact Hi|]. split; [exact Hd|].
  cbv zeta. rewrite Hdot. unfold dotOf. cbn [px py].
  assert (Hblend :
    radialScatter h r i (nth i (lineAmplitude s') 0) d
    == (1 - p) * idleRadialOffset h r i d
       + p * audioRadialScatter h r i (nth i (lineAmplitude s') 0) d)
    by (unfold radialScatter; apply lerp_blend).
  split; [exact Hblend|].
  split; [reflexivity|]. split; [reflexivity|].
  intros Hp.
  pose proof (tangentialScatter_idle r i
                (nth i (lineAmplitude s') 0) d Hp) as Ht.
  split; [exact Ht|].
  fold p in Hblend.
  revert Ht Hblend.
  generalize (tangentialScatter h r i (nth i (lineAmplitude s') 0) d).
  generalize (radialScatter h r i (nth i (lineAmplitude s') 0) d).
  generalize (audioRadialScatter h r i (nth i (lineAmplitude s') 0) d).
  generalize (idleRadialOffset h r i d).
  generalize (lerp (x0 h r i) (x1 h r i (nth i (lineAmplitude s') 0))
                (uOf h r i d)).
  generalize (lerp (y0 h r i) (y1 h r i (nth i (lineAmplitude s') 0))
                (uOf h r i d)).
  generalize (nx h r i), (ny h r i), (tx h r i), (ty h r i).
  revert Hp. generalize p.
  intros q Hq cnx cny ctx_ cty by_ bx idle audio radial tangential Ht Hb.
  rewrite Ht, Hb, Hq. split; ring.
Qed.

End DotScatter.

Section StepFields.

Import Util Visualizer.

Lemma stepState_segments (mob : bool) (c : Config) (inp : FrameInput)
  (s : ScatterState) :
  segments (stepState mob c inp s) = segments s.
Proof.
  unfold stepState, updateRing, drawGlow, initGlow, advanceClock.
  cbv zeta. cbn [segments].
  destruct (Qeq_bool _ 0); reflexivity.
Qed.

Lemma stepState_presence (mob : bool) (c : Config) (inp : FrameInput)
  (s : ScatterState) :
  audioPresence (stepState mob c inp s)
  = nextPresence mob (frameFeatures inp) (audioPresence s).
Proof.
  unfold stepState, updateRing, drawGlow, initGlow, advanceClock.
  cbv zeta. cbn [audioPresence].
  destruct (Qeq_bool _ 0); reflexivity.
Qed.

Lemma stepState_clock (mob : bool) (c : Config) (inp : FrameInput)
  (s : ScatterState) :
  idleAnimationTime (stepState mob c inp s)
  = idleAnimationTime s
    + (frameNow inp - lastFrameTime s) / 1000 * (if mob then 1.5 else 1.0)
  /\ lastFrameTime (stepState mob c inp s) = frameNow inp.
Proof.
  unfold stepState, updateRing, drawGlow, initGlow, advanceClock.
  cbv zeta. cbn [idleAnimationTime lastFrameTime].
  destruct (Qeq_bool _ 0); split; reflexivity.
Qed.

(** The state part of [drawFrame] is the [EvFrame] step of a session. *)
Lemma drawFrame_step (h : Host) (v : Visualizer) (inp : FrameInput) :
  fst (drawFrame h v inp) = step v (EvFrame inp).
Proof. reflexivity. Qed.

End StepFields.

(** The theorem on the first frame of a fresh desktop visualizer with no
    audio source: the presence stays 0 and the dot found has no tangential
    displacement. *)
Lemma dot_scatter_blend_witness :
  let v := Visualizer.createVisualizer false 0 in
  let inp := frameAt 16 None in
  let s' := Visualizer.scatterState (fst (Visualizer.drawFrame flatHost v inp)) in
  let r := Visualizer.ringOf false (Visualizer.config v) inp s' in
  exists i d : nat,
    (i < 140)%nat /\ (d < Visualizer.dotCount)%nat
    /\ Visualizer.tangentialScatter flatHost r i
         (nth i (Visualizer.lineAmplitude s') 0) d == 0.
Proof.
  intros v inp s' r.
  destruct (dot_scatter_blend flatHost v inp
              (Visualizer.dotOf flatHost r 0
                 (nth 0 (Visualizer.lineAmplitude s') 0) 0))
    as [i [d [Hi [Hd [_ [_ [_ Hidle]]]]]]].
  - rewrite drawFrame_dots. fold s' r.
    unfold Visualizer.ringDots. apply in_flat_map. exists 0%nat. split.
    + apply in_seq. cbn [Visualizer.segs r Visualizer.ringOf].
      unfold s'. cbn [fst Visualizer.drawFrame Visualizer.scatterState].
      rewrite stepState_segments. simpl. lia.
    + apply in_map. apply in_seq. unfold Visualizer.dotCount. lia.
  - exists i, d. split.
    + unfold s' in Hi. cbn [fst Visualizer.drawFrame Visualizer.scatterState] in Hi.
      rewrite stepState_segments in Hi. exact Hi.
    + split; [exact Hd|]. apply Hidle.
      cbn [fst Visualizer.drawFrame Visualizer.scatterState].
      rewrite stepState_presence. reflexivity.
Defined.

(** ** Audio presence *)

Section Presence.

Import Util Visualizer.

Lemma step_isMobile (v : Visualizer) (e : Event) :
  isMobile (step v e) = isMobile v.
Proof. destruct e; reflexivity. Qed.

Lemma run_isMobile (es : list Event) (v : Visualizer) :
  isMobile (run v es) = isMobile v.
Proof.
  revert v. induction es as [|e es IH]; intros v; [reflexivity|].
  simpl. change (fold_left step es (step v e)) with (run (step v e) es).
  rewrite IH. apply step_isMobile.
Qed.

Lemma run_app (v : Visualizer) (es1 es2 : list Event) :
  run v (es1 ++ es2) = run (run v es1) es2.
Proof. unfold run. apply fold_left_app. Qed.

Lemma exitSpeed_range (mob : bool) : 0 < 1 - exitSpeed mob /\ 1 - exitSpeed mob < 1.
Proof. destruct mob; unfold exitSpeed; split; lra. Qed.

Lemma nextPresence_quiet (mob : bool) (features : option Features) (p : Q) :
  hasAudioRaw mob features = false -> 0 <= p ->
  nextPresence mob features p == p * (1 - exitSpeed mob).
Proof.
  intros Hq Hp. unfold nextPresence. rewrite Hq. cbv zeta.
  assert (Hgt : gt 0.0 p = false).
  { unfold gt. apply negb_false_iff. apply Qle_bool_iff. lra. }
  rewrite Hgt. unfold lerp. ring.
Qed.

Lemma nextPresence_range (mob : bool) (features : option Features) (p : Q) :
  0 <= p <= 1 -> 0 <= nextPresence mob features p <= 1.
Proof.
  intros Hp. unfold nextPresence, lerp, enterSpeed, exitSpeed.
  destruct (hasAudioRaw mob features); cbv zeta;
    match goal with |- context [gt ?a ?b] => destruct (gt a b) end;
    destruct mob; lra.
Qed.

End Presence.

(** ** The presence on doubles *)

Section PresenceDoubles.

Import PrimFloat Doubles DoubleNotions.
Local Open Scope float_scope.
#[local] Set Warnings "-abstract-large-number".

Lemma frames_add (a b : nat) (mob au : bool) (p : float) :
  frames (a + b) mob au p = frames b mob au (frames a mob au p).
Proof.
  revert p. induction a as [|a IH]; intros p; [reflexivity|].
  cbn [Nat.add frames]. apply IH.
Qed.

Lemma frames_fixed (n : nat) (mob au : bool) (p : float) :
  nextPresence mob au p = p -> frames n mob au p = p.
Proof.
  intros Hfix. induction n as [|n IH]; [reflexivity|].
  cbn [frames]. rewrite Hfix. exact IH.
Qed.

Lemma frames_after (N n : nat) (mob au : bool) (p s : float) :
  frames N mob au p = s -> nextPresence mob au s = s -> (N <= n)%nat ->
  frames n mob au p = s.
Proof.
  intros HN Hfix Hle.
  replace n with (N + (n - N))%nat by lia.
  rewrite frames_add, HN. now apply frames_fixed.
Qed.

Lemma fallsFor_sound (N : nat) (mob : bool) (p : float) :
  fallsFor N mob p = true ->
  forall n : nat, (n < N)%nat ->
    (frames (S n) mob false p <? frames n mob false p) = true
    /\ (frames (S n) mob false p <=? frames n mob false p) = true
    /\ (0 <? frames n mob false p) = true
    /\ (frames n mob false p <=? 1) = true.
Proof.
  revert p. induction N as [|N IH]; intros p Hc n Hn; [lia|].
  cbn [fallsFor] in Hc.
  repeat (apply andb_true_iff in Hc; destruct Hc as [Hc ?]).
  destruct n as [|n].
  - cbn [frames]. repeat split; assumption.
  - change (frames (S (S n)) mob false p)
      with (frames (S n) mob false (nextPresence mob false p)).
    change (frames (S n) mob false p)
      with (frames n mob false (nextPresence mob false p)).
    apply IH; [assumption | lia].
Qed.

Lemma risesFor_sound (N : nat) (mob : bool) (p : float) :
  risesFor N mob p = true ->
  forall n : nat, (n < N)%nat ->
    (frames n mob true p <? frames (S n) mob true p) = true
    /\ (frames n mob true p <=? frames (S n) mob true p) = true
    /\ (0 <=? frames n mob true p) = true
    /\ (frames n mob true p <? 1) = true.
Proof.
  revert p. induction N as [|N IH]; intros p Hc n Hn; [lia|].
  cbn [risesFor] in Hc.
  repeat (apply andb_true_iff in Hc; destruct Hc as [Hc ?]).
  destruct n as [|n].
  - cbn [frames]. repeat split; assumption.
  - change (frames (S (S n)) mob true p)
      with (frames (S n) mob true (nextPresence mob true p)).
    change (frames (S n) mob true p)
      with (frames n mob true (nextPresence mob true p)).
    apply IH; [assumption | lia].
Qed.

Lemma decay_checked (mob : bool) (start : float) :
  start = 1 \/ start = riseCeiling mob ->
  fallsFor (decayFrames mob) mob start = true
  /\ frames (decayFrames mob) mob false start = decayFloor mob.
Proof. intros [-> | ->]; destruct mob; vm_compute; split; reflexivity. Qed.

Lemma decay_floor (mob : bool) :
  nextPresence mob false (decayFloor mob) = decayFloor mob
  /\ (0 <? decayFloor mob) = true
  /\ (decayFloor mob <=? 1) = true
  /\ (decayFloor mob <=? decayFloor mob) = true
  /\ (decayFloor mob <? dyadic 1 (-1070)) = true.
Proof. destruct mob; vm_compute; repeat split; reflexivity. Qed.

(** C4, as stated, fails on the code's doubles: 18172 quiet frames after
    the presence was 1.0 it is [12 * 2^-1074], still positive, and a
    further quiet frame returns the same value instead of a smaller
    one. *)
Lemma presence_stalls_above_zero :
  let p := frames 18172 false false 1 in
  p = dyadic 12 (-1074)
  /\ (0 <? p) = true
  /\ nextPresence false false p = p
  /\ (nextPresence false false p <? p) = false.
Proof. vm_compute. repeat split; reflexivity. Qed.

(** C4, amended: from a presence of 1.0, or of the value at which a
    rise comes to rest ([riseCeiling]), while the raw detection stays
    false the presence gets strictly smaller on each of the first 18172
    frames (8905 on mobile); from then on it keeps the value
    [12 * 2^-1074] ([6 * 2^-1074] on mobile), which the update maps to
    itself.  So it never grows, stays positive and at most 1 on every
    frame, comes within [2^-1070] of 0 and never reaches 0. *)
Theorem presence_decay_doubles (mob : bool) (start : float) :
  start = 1 \/ start = riseCeiling mob ->
  (forall n : nat, (n < decayFrames mob)%nat ->
      (frames (S n) mob false start <? frames n mob false start) = true)
  /\ (forall n : nat, (decayFrames mob <= n)%nat ->
        frames n mob false start = decayFloor mob
        /\ frames (S n) mob false start = frames n mob false start)
  /\ (forall n : nat,
        (frames (S n) mob false start <=? frames n mob false start) = true
        /\ (0 <? frames n mob false start) = true
        /\ (frames n mob false start <=? 1) = true)
  /\ (decayFloor mob <? dyadic 1 (-1070)) = true.
Proof.
  intros Hstart.
  destruct (decay_checked mob start Hstart) as [Hcheck HN].
  pose proof (fallsFor_sound _ mob start Hcheck) as Hfall.
  destruct (decay_floor mob) as [Hfix [Hpos [Hle1 [Hrefl Hsmall]]]].
  assert (Hafter : forall n : nat, (decayFrames mob <= n)%nat ->
             frames n mob false start = decayFloor mob)
    by (intros n Hn; now apply (frames_after (decayFrames mob))).
  split; [|split; [|split]].
  - intros n Hn. apply (Hfall n Hn).
  - intros n Hn. split; [now apply Hafter|].
    rewrite !Hafter by lia. reflexivity.
  - intros n. destruct (Nat.lt_ge_cases n (decayFrames mob)) as [Hn|Hn].
    + destruct (Hfall n Hn) as [_ [H1 [H2 H3]]]. auto.
    + rewrite !Hafter by lia. auto.
  - exact Hsmall.
Qed.

(** The theorem on the eleventh quiet desktop frame after a presence of
    1.0. *)
Lemma presence_decay_doubles_witness :
  (frames 11 false false 1 <? frames 10 false false 1) = true.
Proof.
  apply (proj1 (presence_decay_doubles false 1 (or_introl eq_refl)) 10%nat).
  apply Nat.ltb_lt. vm_compute. reflexivity.
Defined.

Lemma rise_checked (mob : bool) : risesFor (riseFrames mob) mob 0 = true.
Proof. destruct mob; vm_compute; reflexivity. Qed.

Lemma rise_ceiling (mob : bool) :
  frames (riseFrames mob) mob true 0 = riseCeiling mob
  /\ nextPresence mob true (riseCeiling mob) = riseCeiling mob
  /\ (0 <=? riseCeiling mob) = true
  /\ (riseCeiling mob <? 1) = true
  /\ (riseCeiling mob <=? riseCeiling mob) = true.
Proof. destruct mob; vm_compute; repeat split; reflexivity. Qed.

(** X11: from a presence of 0 (a fresh visualizer), while audio is
    detected on every frame the presence gets strictly larger on each of
    the first 417 frames (218 on mobile); from then on it keeps the value
    [1 - 6 * 2^-53] ([1 - 3 * 2^-53] on mobile), which the update maps to
    itself: it never shrinks, stays in [[0, 1)] and never equals 1. *)
Theorem presence_rise_doubles (mob : bool) :
  (forall n : nat, (n < riseFrames mob)%nat ->
      (frames n mob true 0 <? frames (S n) mob true 0) = true)
  /\ (forall n : nat, (riseFrames mob <= n)%nat ->
        frames n mob true 0 = riseCeiling mob
        /\ frames (S n) mob true 0 = frames n mob true 0)
  /\ (forall n : nat,
        (frames n mob true 0 <=? frames (S n) mob true 0) = true
        /\ (0 <=? frames n mob true 0) = true
        /\ (frames n mob true 0 <? 1) = true).
Proof.
  pose proof (risesFor_sound _ mob 0 (rise_checked mob)) as Hrise.
  destruct (rise_ceiling mob) as [HN [Hfix [Hpos [Hlt1 Hrefl]]]].
  assert (Hafter : forall n : nat, (riseFrames mob <= n)%nat ->
             frames n mob true 0 = riseCeiling mob)
    by (intros n Hn; now apply (frames_after (riseFrames mob))).
  split; [|split].
  - intros n Hn. apply (Hrise n Hn).
  - intros n Hn. split; [now apply Hafter|].
    rewrite !Hafter by lia. reflexivity.
  - intros n. destruct (Nat.lt_ge_cases n (riseFrames mob)) as [Hn|Hn].
    + destruct (Hrise n Hn) as [_ [H1 [H2 H3]]]. auto.
    + rewrite !Hafter by lia. auto.
Qed.

(** The theorem on the first audible desktop frame. *)
Lemma presence_rise_doubles_witness :
  (frames 0 false true 0 <? frames 1 false true 0) = true.
Proof.
  apply (proj1 (presence_rise_doubles false) 0%nat).
  apply Nat.ltb_lt. vm_compute. reflexivity.
Defined.

End PresenceDoubles.

(** ** Bounds on the smoothed state *)

Section Bounds.

Import Util Visualizer.

Lemma clamp_range (v lo hi : Q) : lo <= hi -> lo <= clamp v lo hi <= hi.
Proof.
  intros Hle. unfold clamp. split.
  - apply Q.le_max_l.
  - apply Q.max_lub; [exact Hle | apply Q.le_min_l].
Qed.

Lemma easeOf_range (mob : bool) (smooth loudness : Q) :
  0.03 <= easeOf mob smooth loudness <= 0.35.
Proof. unfold easeOf. cbv zeta. apply clamp_range. lra. Qed.

Lemma segmentSample_range (n : nat) (tm : option (list Z)) (i : nat) :
  match tm with Some t => Forall uint8 t | None => True end ->
  0 <= segmentSample n tm i <= 1.
Proof.
  intros Hwf. unfold segmentSample. cbv zeta.
  destruct tm as [arr|]; [|lra].
  destruct (Z.ltb_spec 0 (Z.of_nat (length arr))) as [Hlen|_]; [|lra].
  set (idx := (Qfloor _ mod _)%Z).
  assert (Hidx : (0 <= idx < Z.of_nat (length arr))%Z)
    by (apply Z.mod_pos_bound; exact Hlen).
  assert (Hin : In (nth (Z.to_nat idx) arr 0%Z) arr)
    by (apply nth_In; lia).
  rewrite Forall_forall in Hwf. destruct (Hwf _ Hin) as [Hlo Hhi].
  set (x := nth (Z.to_nat idx) arr 0%Z) in *.
  assert (H0 : 0 <= inject_Z x)
    by (change 0 with (inject_Z 0); rewrite <- Zle_Qle; exact Hlo).
  assert (H1 : inject_Z x <= 255)
    by (change 255 with (inject_Z 255); rewrite <- Zle_Qle; exact Hhi).
  split.
  - apply Qle_shift_div_l; lra.
  - apply Qle_shift_div_r; lra.
Qed.

Lemma lerp_abs_le (a b t B : Q) :
  0 <= t <= 1 -> Qabs a <= B -> Qabs b <= B -> Qabs (lerp a b t) <= B.
Proof.
  intros Ht Ha Hb.
  apply Qabs_Qle_condition in Ha. apply Qabs_Qle_condition in Hb.
  apply Qabs_Qle_condition. unfold lerp.
  assert (E : a + (b - a) * t == (1 - t) * a + t * b) by ring.
  assert (H1 : 0 <= (1 - t) * (B - a)) by (apply Qmult_le_0_compat; lra).
  assert (H2 : 0 <= t * (B - b)) by (apply Qmult_le_0_compat; lra).
  assert (H3 : 0 <= (1 - t) * (a + B)) by (apply Qmult_le_0_compat; lra).
  assert (H4 : 0 <= t * (b + B)) by (apply Qmult_le_0_compat; lra).
  split; lra.
Qed.

Lemma target_abs_le (mob : bool) (sens maxAmplitude p : Q) (n : nat)
  (tm : option (list Z)) (i : nat) :
  match tm with Some t => Forall uint8 t | None => True end ->
  0 <= p <= 1 ->
  Qabs (segmentTarget mob sens maxAmplitude p n tm i)
  <= Qabs (sens * maxAmplitude * (if mob then 1.3 else 1.0)).
Proof.
  intros Hwf Hp. unfold segmentTarget. cbv zeta.
  pose proof (segmentSample_range n tm i Hwf) as Hs.
  set (x := segmentSample n tm i) in *.
  set (K := sens * maxAmplitude * (if mob then 1.3 else 1.0)).
  assert (E : (x - 0.5) * 2 * sens * maxAmplitude * p
              * (if mob then 1.3 else 1.0)
              == ((x - 0.5) * 2 * p) * K) by (unfold K; ring).
  rewrite E, Qabs_Qmult.
  assert (Hm : Qabs ((x - 0.5) * 2 * p) <= 1).
  { apply Qabs_Qle_condition.
    assert (H1 : 0 <= p * (1 - ((x - 0.5) * 2)))
      by (apply Qmult_le_0_compat; lra).
    assert (H2 : 0 <= p * (1 + ((x - 0.5) * 2)))
      by (apply Qmult_le_0_compat; lra).
    split; lra. }
  pose proof (Qabs_nonneg K) as HK.
  apply Qle_trans with (1 * Qabs K); [|lra].
  apply Qmult_le_compat_r; assumption.
Qed.

Lemma stepState_lineAmplitude (mob : bool) (c : Config) (inp : FrameInput)
  (s : ScatterState) :
  lineAmplitude (stepState mob c inp s)
  = map (fun i =>
           lerp (nth i (lineAmplitude s) 0)
             (segmentTarget mob (sensitivity c) (maxAmplitudeAt mob inp)
                (nextPresence mob (frameFeatures inp) (audioPresence s))
                (segments s) (featTime (frameFeatures inp)) i)
             (easeOf mob (smoothing c) (featLoudness (frameFeatures inp))))
      (seq 0 (segments s)).
Proof.
  unfold stepState, updateRing, drawGlow, initGlow, advanceClock.
  cbv zeta. cbn [lineAmplitude].
  destruct (Qeq_bool _ 0); reflexivity.
Qed.

(** One frame keeps the amplitudes within [B] when its target bound is. *)
Lemma stepState_amplitudes (B : Q) (v : Visualizer) (inp : FrameInput) :
  0 <= B -> wellFormed inp -> targetBound v inp <= B ->
  0 <= audioPresence (scatterState v) <= 1 ->
  Forall (fun a => Qabs a <= B) (lineAmplitude (scatterState v)) ->
  Forall (fun a => Qabs a <= B)
    (lineAmplitude (stepState (isMobile v) (config v) inp (scatterState v))).
Proof.
  intros HB Hwf Htb Hp Hall.
  rewrite stepState_lineAmplitude.
  apply Forall_map, Forall_forall. intros i _.
  pose proof (easeOf_range (isMobile v) (smoothing (config v))
                (featLoudness (frameFeatures inp))) as He.
  apply lerp_abs_le.
  - lra.
  - destruct (Nat.lt_ge_cases i (length (lineAmplitude (scatterState v))))
      as [Hi|Hi].
    + rewrite Forall_forall in Hall. apply Hall, nth_In, Hi.
    + rewrite nth_overflow by exact Hi. exact HB.
  - eapply Qle_trans; [|exact Htb].
    apply target_abs_le; [exact Hwf|].
    apply nextPresence_range, Hp.
Qed.

Lemma run_presence_range (es : list Event) (v : Visualizer) :
  0 <= audioPresence (scatterState v) <= 1 ->
  0 <= audioPresence (scatterState (run v es)) <= 1.
Proof.
  revert v. induction es as [|e es IH]; intros v Hp; [exact Hp|].
  change (run v (e :: es)) with (run (step v e) es).
  apply IH. destruct e; try exact Hp.
  cbn [step scatterState]. rewrite stepState_presence.
  apply nextPresence_range, Hp.
Qed.

Lemma run_amplitudes (B : Q) (es : list Event) (v : Visualizer) :
  0 <= B -> targetsWithin B v es ->
  0 <= audioPresence (scatterState v) <= 1 ->
  Forall (fun a => Qabs a <= B) (lineAmplitude (scatterState v)) ->
  Forall (fun a => Qabs a <= B) (lineAmplitude (scatterState (run v es))).
Proof.
  intros HB. revert v.
  induction es as [|e es IH]; intros v Hw Hp Hall; [exact Hall|].
  change (run v (e :: es)) with (run (step v e) es).
  cbn [targetsWithin] in Hw. destruct Hw as [He Hes].
  apply IH; [exact Hes| |].
  - destruct e; try exact Hp.
    cbn [step scatterState]. rewrite stepState_presence.
    apply nextPresence_range, Hp.
  - destruct e; try exact Hall.
    destruct He as [Hwf Htb]. cbn [step scatterState].
    now apply stepState_amplitudes.
Qed.

(** C5, as stated, fails: after four frames of a full-scale waveform on a
    fresh desktop visualizer with its default sensitivity 7.2, the
    amplitude of segment 0 exceeds [maxAmplitude]. *)
Lemma lineAmplitude_exceeds_maxAmplitude :
  let v := run (createVisualizer false 0)
             [EvFrame (frameAt 16 (Some loudFeatures));
              EvFrame (frameAt 32 (Some loudFeatures));
              EvFrame (frameAt 48 (Some loudFeatures));
              EvFrame (frameAt 64 (Some loudFeatures))] in
  maxAmplitudeAt false (frameAt 64 (Some loudFeatures))
  < Qabs (nth 0 (lineAmplitude (scatterState v)) 0).
Proof. vm_compute. reflexivity. Qed.

(** C5, amended: in every session of a fresh visualizer [audioPresence]
    stays in [[0, 1]] and the ease factor of every frame lies in
    [[0.03, 0.35]]; every [lineAmplitude] entry stays within [B] in
    absolute value when [|sensitivity * maxAmplitude * boost| <= B] on every
    frame (with [Uint8Array] waveforms), a bound that is [maxAmplitude] only
    for sensitivities of magnitude at most 1. *)
Theorem smoothed_state_bounds (mob : bool) (now : Q) :
  (forall es : list Event,
      0 <= audioPresence (scatterState (run (createVisualizer mob now) es))
      <= 1)
  /\ (forall smooth loudness : Q,
        0.03 <= easeOf mob smooth loudness <= 0.35)
  /\ (forall (B : Q) (es : list Event),
        0 <= B -> targetsWithin B (createVisualizer mob now) es ->
        Forall (fun a => Qabs a <= B)
          (lineAmplitude (scatterState (run (createVisualizer mob now) es)))).
Proof.
  assert (Hp0 : 0 <= audioPresence (scatterState (createVisualizer mob now))
                <= 1) by (cbn; lra).
  split; [|split].
  - intros es. apply run_presence_range, Hp0.
  - apply easeOf_range.
  - intros B es HB Hw.
    apply run_amplitudes; [exact HB | exact Hw | exact Hp0 |].
    cbn [createVisualizer scatterState lineAmplitude].
    apply Forall_forall. intros a Ha. apply repeat_spec in Ha. subst a.
    exact HB.
Qed.

End Bounds.

(** The amplitude bound on the four loud frames: the entries stay within
    [7.2 * maxAmplitude]. *)
Lemma smoothed_state_bounds_witness :
  let es := [Visualizer.EvFrame (frameAt 16 (Some loudFeatures));
             Visualizer.EvFrame (frameAt 32 (Some loudFeatures));
             Visualizer.EvFrame (frameAt 48 (Some loudFeatures));
             Visualizer.EvFrame (frameAt 64 (Some loudFeatures))] in
  Forall (fun a => Qabs a <= 283.5)
    (Visualizer.lineAmplitude
       (Visualizer.scatterState
          (Visualizer.run (Visualizer.createVisualizer false 0) es))).
Proof.
  intros es.
  apply (proj2 (proj2 (smoothed_state_bounds false 0)) 283.5 es).
  - discriminate.
  - assert (Hwf : wellFormed (frameAt 16 (Some loudFeatures))).
    { change (Forall uint8 (repeat 255%Z 1024)).
      apply Forall_forall. intros x Hx.
      apply repeat_spec in Hx. subst x. unfold uint8. lia. }
    assert (Htb : forall v,
               Visualizer.isMobile v = false ->
               Visualizer.sensitivity (Visualizer.config v) = 7.2 ->
               forall now, targetBound v (frameAt now (Some loudFeatures))
                           <= 283.5).
    { intros v Hm Hs now0. unfold targetBound, maxAmplitudeAt.
      rewrite Hm, Hs. vm_compute. discriminate. }
    cbn [es targetsWithin].
    repeat split; try exact Hwf; try exact I;
      apply Htb; reflexivity.
Defined.

(** ** The frame clock *)

Section Clock.

Import Util Visualizer.

(** C6, as stated, fails: a visualizer created at clock 1000 and drawn at
    clock 0 takes the elapsed time as -1 s, and [idleAnimationTime] goes
    from 0 down to -1. *)
Lemma clock_regression_decreases_idle_time :
  let v := createVisualizer false 1000 in
  let inp := frameAt 0 None in
  let v' := step v (EvFrame inp) in
  frameNow inp < lastFrameTime (scatterState v)
  /\ idleAnimationTime (scatterState v) == 0
  /\ idleAnimationTime (scatterState v') == -1
  /\ idleAnimationTime (scatterState v')
     < idleAnimationTime (scatterState v).
Proof. vm_compute. repeat split; reflexivity. Qed.

Lemma step_clock (v : Visualizer) (inp : FrameInput) :
  lastFrameTime (scatterState v) <= frameNow inp ->
  idleAnimationTime (scatterState v)
  <= idleAnimationTime (scatterState (step v (EvFrame inp)))
  /\ lastFrameTime (scatterState (step v (EvFrame inp))) = frameNow inp.
Proof.
  intros Hle. cbn [step scatterState].
  destruct (stepState_clock (isMobile v) (config v) inp (scatterState v))
    as [-> ->].
  split; [|reflexivity].
  assert (H : 0 <= (frameNow inp - lastFrameTime (scatterState v)) / 1000
                   * (if isMobile v then 1.5 else 1.0)).
  { apply Qmult_le_0_compat.
    - apply Qle_shift_div_l; lra.
    - destruct (isMobile v); lra. }
  lra.
Qed.

Lemma run_clock (es : list Event) (v : Visualizer) :
  clockMonotone (lastFrameTime (scatterState v)) es ->
  idleAnimationTime (scatterState v)
  <= idleAnimationTime (scatterState (run v es)).
Proof.
  revert v. induction es as [|e es IH]; intros v Hm.
  - cbn. lra.
  - change (run v (e :: es)) with (run (step v e) es).
    destruct e as [inp| | | | |];
      try (match goal with
           | |- context [step v ?e] => exact (IH (step v e) Hm)
           end).
    cbn [clockMonotone] in Hm. destruct Hm as [Hle Hrest].
    destruct (step_clock v inp Hle) as [Hidle Hlast].
    eapply Qle_trans; [exact Hidle|].
    apply IH. rewrite Hlast. exact Hrest.
Qed.

Lemma clockMonotone_app (es1 es2 : list Event) (v : Visualizer) :
  clockMonotone (lastFrameTime (scatterState v)) (es1 ++ es2) ->
  clockMonotone (lastFrameTime (scatterState (run v es1))) es2.
Proof.
  revert v. induction es1 as [|e es1 IH]; intros v Hm; [exact Hm|].
  change (run v (e :: es1)) with (run (step v e) es1).
  apply IH.
  destruct e as [inp| | | | |]; try exact Hm.
  cbn [app clockMonotone] in Hm. destruct Hm as [Hle Hrest].
  destruct (step_clock v inp Hle) as [_ Hlast].
  rewrite Hlast. exact Hrest.
Qed.

(** C6, amended: a frame adds [(now - lastFrameTime) / 1000] times the
    animation speed to [idleAnimationTime], with no clamping, and stores
    [now]; so in a session whose clock readings never go back (as those of
    [performance.now()]), [idleAnimationTime] never decreases from one point
    of the session to a later one. *)
Theorem idle_time_monotone (v : Visualizer) :
  (forall inp : FrameInput,
      let s' := scatterState (step v (EvFrame inp)) in
      idleAnimationTime s'
      == idleAnimationTime (scatterState v)
         + (frameNow inp - lastFrameTime (scatterState v)) / 1000
           * (if isMobile v then 1.5 else 1.0)
      /\ lastFrameTime s' = frameNow inp)
  /\ (forall es1 es2 : list Event,
        clockMonotone (lastFrameTime (scatterState v)) (es1 ++ es2) ->
        idleAnimationTime (scatterState (run v es1))
        <= idleAnimationTime (scatterState (run v (es1 ++ es2)))).
Proof.
  split.
  - intros inp. cbn [step scatterState].
    destruct (stepState_clock (isMobile v) (config v) inp (scatterState v))
      as [-> ->].
    split; reflexivity.
  - intros es1 es2 Hm. rewrite run_app.
    apply run_clock. now apply clockMonotone_app.
Qed.

End Clock.

(** The second part on two frames at clocks 16 and 32 after a creation at
    clock 0. *)
Lemma idle_time_monotone_witness :
  let v := Visualizer.createVisualizer false 0 in
  Visualizer.idleAnimationTime
    (Visualizer.scatterState
       (Visualizer.run v [Visualizer.EvFrame (frameAt 16 None)]))
  <= Visualizer.idleAnimationTime
       (Visualizer.scatterState
          (Visualizer.run v ([Visualizer.EvFrame (frameAt 16 None)]
                             ++ [Visualizer.EvFrame (frameAt 32 None)]))).
Proof.
  intros v.
  apply (proj2 (idle_time_monotone v)).
  cbn. repeat split; discriminate.
Defined.

(** ** The setters *)

Section Setters.

Import Util Visualizer.

(** C7, as stated, fails: each setter stores a negative value as it is. *)
Lemma setters_store_negative_values :
  let v := createVisualizer false 0 in
  sensitivity (config (setSensitivity v (-1))) < 0
  /\ smoothing (config (setSmoothing v (-1))) < 0
  /\ idleSpeed (config (setIdleSpeed v (-1))) < 0
  /\ radialScatterMultiplier (config (setRadialScatter v (-1))) < 0
  /\ tangentialScatterMultiplier (config (setTangentialScatter v (-1))) < 0.
Proof. cbn. repeat split; reflexivity. Qed.

Lemma clamp_compat (v v' lo hi : Q) :
  v == v' -> clamp v lo hi == clamp v' lo hi.
Proof. intros E. unfold clamp. now rewrite E. Qed.

Lemma clamp_third (x : Q) : clamp (x / 3) 0 1 == clamp (clamp x 0 3 / 3) 0 1.
Proof.
  unfold clamp.
  destruct (Q.min_spec 3 x) as [[H1 E1]|[H1 E1]];
    destruct (Q.max_spec 0 (Qmin 3 x)) as [[H2 E2]|[H2 E2]];
    rewrite E2; try rewrite E1.
  - (* 3 < x *)
    assert (E : 3 / 3 == 1) by reflexivity. rewrite E.
    rewrite (Q.min_l 1 (x / 3)), (Q.min_l 1 1); try lra.
    apply Qle_shift_div_l; lra.
  - rewrite E1 in H2. lra.
  - reflexivity.
  - (* x <= 0 *)
    rewrite E1 in H2.
    assert (E : 0 / 3 == 0) by reflexivity. rewrite E.
    assert (Hx : x / 3 <= 0).
    { apply Qle_shift_div_r; lra. }
    rewrite (Q.min_r 1 (x / 3)), (Q.min_r 1 0) by lra.
    rewrite (Q.max_l 0 (x / 3)), (Q.max_l 0 0) by lra.
    reflexivity.
Qed.

(** C7, amended: each setter stores its argument unchanged, whatever it
    is, leaves the other settings and the scatter state alone, and is a
    total function (nothing is raised); the one clamping is where
    [smoothing] is used: the ease factor of a frame is that of [smoothing]
    clamped to [[0, 3]]. *)
Theorem setters_store_value (v : Visualizer) (value : Q) :
  (setSensitivity v value
   = mkVisualizer (isMobile v)
       (mkConfig value (smoothing (config v)) (idleSpeed (config v))
          (radialScatterMultiplier (config v))
          (tangentialScatterMultiplier (config v)))
       (scatterState v))
  /\ (setSmoothing v value
      = mkVisualizer (isMobile v)
          (mkConfig (sensitivity (config v)) value (idleSpeed (config v))
             (radialScatterMultiplier (config v))
             (tangentialScatterMultiplier (config v)))
          (scatterState v))
  /\ (setIdleSpeed v value
      = mkVisualizer (isMobile v)
          (mkConfig (sensitivity (config v)) (smoothing (config v)) value
             (radialScatterMultiplier (config v))
             (tangentialScatterMultiplier (config v)))
          (scatterState v))
  /\ (setRadialScatter v value
      = mkVisualizer (isMobile v)
          (mkConfig (sensitivity (config v)) (smoothing (config v))
             (idleSpeed (config v)) value
             (tangentialScatterMultiplier (config v)))
          (scatterState v))
  /\ (setTangentialScatter v value
      = mkVisualizer (isMobile v)
          (mkConfig (sensitivity (config v)) (smoothing (config v))
             (idleSpeed (config v)) (radialScatterMultiplier (config v))
             value)
          (scatterState v))
  /\ (forall loudness : Q,
        easeOf (isMobile v) value loudness
        == easeOf (isMobile v) (clamp value 0 3) loudness).
Proof.
  repeat (split; [reflexivity|]).
  intros loudness. unfold easeOf. cbv zeta.
  apply clamp_compat. unfold lerp.
  rewrite (clamp_third value). reflexivity.
Qed.

End Setters.

(** ** More on computeBands *)

Section BandValues.

Import AudioManager.

Lemma zsum_range (l : list Z) :
  Forall uint8 l -> (0 <= zsum l <= 255 * Z.of_nat (length l))%Z.
Proof.
  induction 1 as [|s l [Hlo Hhi] _ IH].
  - simpl. lia.
  - cbn [zsum fold_right length]. fold (zsum l). lia.
Qed.

Lemma Forall_slice {A : Type} (P : A -> Prop) (n k : nat) (l : list A) :
  Forall P l -> Forall P (firstn k (skipn n l)).
Proof.
  intros Hall.
  rewrite <- (firstn_skipn n l) in Hall.
  apply Forall_app in Hall. destruct Hall as [_ Hs].
  rewrite <- (firstn_skipn k (skipn n l)) in Hs.
  apply Forall_app in Hs. exact (proj1 Hs).
Qed.

Lemma bandGroup_uint8 (freqArray : list Z) (bandCount i : nat) :
  Forall uint8 freqArray -> Forall uint8 (bandGroup freqArray bandCount i).
Proof. intros Hall. unfold bandGroup. cbv zeta. now apply Forall_slice. Qed.

(** X1: on a spectrum of bytes every band is a finite number between 0
    and 255, whatever the band count. *)
Theorem computeBands_range (freqArray : list Z) (bandCount : nat) :
  Forall uint8 freqArray ->
  Forall (fun b => exists q : Q, b = Some q /\ 0 <= q <= 255)
    (computeBands freqArray bandCount).
Proof.
  intros Hall. unfold computeBands.
  apply Forall_map, Forall_forall. intros i Hi. apply in_seq in Hi.
  rewrite bandValue_group by lia.
  pose proof (zsum_range _ (bandGroup_uint8 freqArray bandCount i Hall))
    as [Hlo Hhi].
  set (g := bandGroup freqArray bandCount i) in *.
  eexists. split; [reflexivity|].
  assert (Hn : (0 < Z.of_nat (Js.orOne (length g)))%Z)
    by (pose proof (orOne_pos (length g)); lia).
  assert (Hcnt : (Z.of_nat (length g) <= Z.of_nat (Js.orOne (length g)))%Z)
    by (destruct (length g); simpl; lia).
  assert (Hd : 0 < inject_Z (Z.of_nat (Js.orOne (length g))))
    by (change 0 with (inject_Z 0); rewrite <- Zlt_Qlt; exact Hn).
  split.
  - apply Qle_shift_div_l; [exact Hd|].
    rewrite Qmult_0_l. change 0 with (inject_Z 0).
    rewrite <- Zle_Qle. exact Hlo.
  - apply Qle_shift_div_r; [exact Hd|].
    change 255 with (inject_Z 255). rewrite <- inject_Z_mult, <- Zle_Qle.
    lia.
Qed.

(** The theorem on a three-sample spectrum. *)
Lemma computeBands_range_witness :
  Forall (fun b => exists q : Q, b = Some q /\ 0 <= q <= 255)
    (computeBands [0; 255; 128]%Z 2).
Proof.
  apply computeBands_range.
  repeat constructor; unfold uint8; lia.
Defined.

(** X2: the samples left over by the division all go to the last band:
    it has [floor(N / bandCount) + N mod bandCount] members, so the bands
    are equal in size exactly when [bandCount] divides [N]. *)
Theorem last_band_size (freqArray : list Z) (bandCount : nat) :
  (0 < bandCount)%nat ->
  let N := length freqArray in
  length (bandGroup freqArray bandCount (bandCount - 1))
  = (N / bandCount + N mod bandCount)%nat
  /\ (length (bandGroup freqArray bandCount (bandCount - 1))
      = (N / bandCount)%nat <-> (N mod bandCount = 0)%nat).
Proof.
  intros Hpos N.
  assert (E : length (bandGroup freqArray bandCount (bandCount - 1))
              = (N / bandCount + N mod bandCount)%nat).
  { rewrite bandGroup_last, length_skipn. fold N.
    pose proof (Nat.div_mod_eq N bandCount) as Hdm. nia. }
  split; [exact E|]. rewrite E. lia.
Qed.

(** The theorem on 512 bins cut in 5: the last band has 104 bins. *)
Lemma last_band_size_witness :
  length (bandGroup (repeat 0%Z 512) 5 (5 - 1)) = 104%nat.
Proof.
  rewrite (proj1 (last_band_size (repeat 0%Z 512) 5 ltac:(lia))).
  rewrite repeat_length. reflexivity.
Defined.

End BandValues.

(** ** More on computeRms *)

Section RmsValues.

Import AudioManager.

Local Abbreviation squares :=
  (fold_right (fun s a => (((IZR s - 128) / 128) ^ 2 + a)%R) 0%R).

Lemma squares_zero_iff (l : list Z) :
  squares l = 0%R <-> Forall (eq 128%Z) l.
Proof.
  induction l as [|s l IH].
  - split; [constructor | reflexivity].
  - cbn [fold_right].
    pose proof (squares_nonneg l) as Hl.
    pose proof (pow2_ge_0 ((IZR s - 128) / 128)) as Hs.
    split.
    + intros H.
      assert (Hs0 : (((IZR s - 128) / 128) ^ 2 = 0)%R) by lra.
      assert (Hl0 : squares l = 0%R) by lra.
      constructor; [|now apply IH].
      assert (E : IZR s = 128%R) by nra.
      symmetry. now apply eq_IZR.
    + intros H. inversion H as [|x l' Hx Hrest]; subst.
      apply IH in Hrest. rewrite Hrest. lra.
Qed.

(** X3: a waveform with at least one sample has loudness exactly 0 if and
    only if every sample is 128. *)
Theorem computeRms_zero_iff (timeArray : list Z) :
  timeArray <> [] ->
  (computeRms timeArray = Some 0%R <-> Forall (eq 128%Z) timeArray).
Proof.
  destruct timeArray as [|s l]; [contradiction|]. intros _.
  rewrite computeRms_cons. unfold rootMeanSquare.
  assert (Hpos : (0 < INR (length (s :: l)))%R)
    by (apply lt_0_INR; simpl; lia).
  pose proof (squares_nonneg (s :: l)) as Hnn.
  rewrite <- squares_zero_iff.
  set (S := squares (s :: l)) in *.
  set (n := INR (length (s :: l))) in *.
  assert (Hq : (0 <= S / n)%R)
    by (apply Rmult_le_pos; [exact Hnn | apply Rlt_le, Rinv_0_lt_compat, Hpos]).
  split.
  - intros H. injection H as H.
    apply sqrt_eq_0 in H; [|exact Hq].
    unfold Rdiv in H. apply Rmult_integral in H. destruct H as [H|H].
    + exact H.
    + pose proof (Rinv_0_lt_compat n Hpos). lra.
  - intros ->. unfold Rdiv. rewrite Rmult_0_l, sqrt_0. reflexivity.
Qed.

(** The theorem on a silent three-sample waveform. *)
Lemma computeRms_zero_iff_witness :
  computeRms [128; 128; 128]%Z = Some 0%R.
Proof.
  apply (computeRms_zero_iff [128; 128; 128]%Z); [discriminate|].
  repeat constructor.
Defined.

Lemma squares_perm (l l' : list Z) :
  Permutation l l' -> squares l = squares l'.
Proof.
  induction 1 as [|x l l' _ IH|x y l|l l' l'' _ IH1 _ IH2];
    cbn [fold_right].
  - reflexivity.
  - rewrite IH. reflexivity.
  - lra.
  - now rewrite IH1.
Qed.

(** X4: the loudness does not depend on the order of the samples. *)
Theorem computeRms_permutation (l l' : list Z) :
  Permutation l l' -> computeRms l = computeRms l'.
Proof.
  intros Hp.
  destruct l as [|s l].
  - apply Permutation_nil in Hp. subst l'. reflexivity.
  - destruct l' as [|s' l''].
    + apply Permutation_sym, Permutation_nil in Hp. discriminate.
    + rewrite !computeRms_cons. f_equal. unfold rootMeanSquare.
      rewrite (squares_perm _ _ Hp), (Permutation_length Hp). reflexivity.
Qed.

(** The theorem on a waveform and its reversal. *)
Lemma computeRms_permutation_witness :
  computeRms [0; 128; 255]%Z = computeRms (rev [0; 128; 255]%Z).
Proof.
  apply computeRms_permutation. apply Permutation_rev.
Defined.

Lemma square_full_scale (s : Z) :
  uint8 s ->
  ((((IZR s - 128) / 128) ^ 2 <= 1)%R)
  /\ ((((IZR s - 128) / 128) ^ 2 = 1)%R -> s = 0%Z).
Proof.
  intros [Hlo Hhi]. apply IZR_le in Hlo, Hhi.
  split; [nra|].
  intros H.
  assert (E : ((IZR s - 128) * (IZR s - 128) = 128 * 128)%R) by nra.
  assert (E0 : (IZR s * (IZR s - 256) = 0)%R) by nra.
  apply Rmult_integral in E0. destruct E0 as [E0|E0].
  - now apply eq_IZR.
  - lra.
Qed.

Lemma squares_full_iff (l : list Z) :
  Forall uint8 l ->
  squares l = INR (length l) <-> Forall (eq 0%Z) l.
Proof.
  induction 1 as [|s l Hs Hall IH].
  - split; [constructor | reflexivity].
  - change (length (s :: l)) with (Datatypes.S (length l)).
    rewrite S_INR. cbn [fold_right].
    pose proof (squares_le_length l Hall) as Hl.
    destruct (square_full_scale s Hs) as [Hle Heq].
    split.
    + intros H. constructor.
      * symmetry. apply Heq. lra.
      * apply IH. lra.
    + intros H. inversion H as [|x l' Hx Hrest]; subst.
      apply IH in Hrest. rewrite Hrest. lra.
Qed.

(** X5: on bytes the loudness reaches 1 only at full negative scale: it is
    exactly 1 if and only if every sample is 0. *)
Theorem computeRms_one_iff (timeArray : list Z) :
  timeArray <> [] -> Forall uint8 timeArray ->
  (computeRms timeArray = Some 1%R <-> Forall (eq 0%Z) timeArray).
Proof.
  destruct timeArray as [|s l]; [contradiction|]. intros _ Hall.
  rewrite computeRms_cons. unfold rootMeanSquare.
  assert (Hpos : (0 < INR (length (s :: l)))%R)
    by (apply lt_0_INR; simpl; lia).
  pose proof (squares_nonneg (s :: l)) as Hnn.
  rewrite <- (squares_full_iff _ Hall).
  set (S := squares (s :: l)) in *.
  set (n := INR (length (s :: l))) in *.
  assert (Hq : (0 <= S / n)%R)
    by (apply Rmult_le_pos; [exact Hnn | apply Rlt_le, Rinv_0_lt_compat, Hpos]).
  split.
  - intros H. injection H as H.
    rewrite <- sqrt_1 in H.
    apply sqrt_inj in H; [|exact Hq|lra].
    apply (Rmult_eq_compat_r n) in H.
    unfold Rdiv in H. rewrite Rmult_assoc, Rinv_l in H by lra. lra.
  - intros ->. unfold Rdiv. rewrite Rinv_r by lra.
    rewrite sqrt_1. reflexivity.
Qed.

(** The theorem on two samples of 0. *)
Lemma computeRms_one_iff_witness : computeRms [0; 0]%Z = Some 1%R.
Proof.
  apply (computeRms_one_iff [0; 0]%Z).
  - discriminate.
  - repeat constructor; unfold uint8; lia.
  - repeat constructor.
Defined.

End RmsValues.

(** ** The audio manager *)

Section Manager.

Import AudioManager AudioSession SessionNotions.

Lemma length_fillBytes (n : nat) (data : list Z) :
  length (fillBytes n data) = n.
Proof.
  unfold fillBytes. rewrite length_app, length_firstn, repeat_length. lia.
Qed.

Lemma fillBytes_uint8 (n : nat) (data : list Z) :
  Forall uint8 data -> Forall uint8 (fillBytes n data).
Proof.
  intros Hall. unfold fillBytes. apply Forall_app. split.
  - rewrite <- (firstn_skipn n data) in Hall.
    apply Forall_app in Hall. exact (proj1 Hall).
  - apply Forall_forall. intros x Hx. apply repeat_spec in Hx. subst x.
    unfold uint8. lia.
Qed.

Lemma ordered_intro (ctx : option ContextState) (an : option Analyser)
  (src ms : bool) :
  (forall a, an = Some a -> fftSize a = 1024%nat /\ src = true) ->
  (src = true -> ctx <> None) -> (ctx <> None -> ms = true) ->
  ordered (mkManager ctx an src ms).
Proof.
  intros Ha Hs Hc. unfold ordered. cbn.
  split; [exact Ha | split; [exact Hs | exact Hc]].
Qed.

Lemma start_ordered (env : StartEnv) (m : Manager) :
  ordered m -> ordered (fst (start env m)).
Proof.
  intros Hm. pose proof Hm as [Ha [Hs Hc]].
  destruct m as [ctx an src ms].
  cbn [audioContext analyser source mediaStream] in Ha, Hs, Hc.
  unfold start. cbn [audioContext analyser source mediaStream].
  generalize (mkAnalyser 1024 (if envMobile env then 0.7 else 0.9))
    (eq_refl : fftSize (mkAnalyser 1024 (if envMobile env then 0.7 else 0.9))
               = 1024%nat).
  intros A HA.
  assert (Hacq :
    ordered
      (fst (if negb (hasGetUserMedia env) then (mkManager ctx an src ms, Thrown)
            else if negb (micGranted env)
                 then (mkManager ctx an src ms, Thrown)
                 else if negb (contextCreated env)
                      then (mkManager ctx an src true, Thrown)
                      else if negb (sourceCreated env)
                           then (mkManager (Some (newContextState env)) an
                                   src true, Thrown)
                           else if negb (analyserCreated env)
                                then (mkManager
                                        (Some (newContextState env)) an true
                                        true, Thrown)
                                else (mkManager
                                        (Some (newContextState env))
                                        (Some A) true true, Returned)))).
  { destruct (hasGetUserMedia env); cbn [negb fst]; [|exact Hm].
    destruct (micGranted env); cbn [negb fst]; [|exact Hm].
    destruct (contextCreated env), (sourceCreated env), (analyserCreated env);
      cbn [negb fst]; apply ordered_intro;
      first [ intros a E; assert (a = A) by congruence; subst a;
              split; [exact HA | reflexivity]
            | intros a E; destruct (Ha a E); split; auto; fail
            | intros; discriminate
            | intros; reflexivity
            | assumption ]. }
  destruct ctx as [[|]|]; try exact Hacq.
  destruct (resumeResolves env); cbn [fst]; [|exact Hm].
  apply ordered_intro; [exact Ha | intros; discriminate |].
  intros _. apply Hc. discriminate.
Qed.
Lemma call_ordered (m : Manager) (c : ManagerCall) :
  ordered m -> ordered (call m c).
Proof.
  intros Hc. destruct c as [env|].
  - now apply start_ordered.
  - cbn. repeat split; intros; try discriminate. contradiction.
Qed.

Lemma calls_ordered (cs : list ManagerCall) (m : Manager) :
  ordered m -> ordered (calls m cs).
Proof.
  revert m. induction cs as [|c cs IH]; intros m Hc; [exact Hc|].
  apply (IH (call m c)), call_ordered, Hc.
Qed.

Lemma fresh_ordered : ordered createAudioManager.
Proof. cbn. repeat split; intros; try discriminate. contradiction. Qed.

(** X6: whatever calls were made and whatever bytes the analyser holds,
    [getFeatures] returns either the neutral snapshot (when there is no
    analyser) or 512 frequency bytes, 1024 waveform bytes, five bands
    between 0 and 255 and a loudness between 0 and 1, never [NaN]. *)
Theorem getFeatures_wellformed (cs : list ManagerCall) (d : AnalysisData) :
  Forall uint8 (byteFrequency d) -> Forall uint8 (byteTimeDomain d) ->
  let m := calls createAudioManager cs in
  match analyser m with
  | None => getFeatures m d = neutral
  | Some _ =>
      exists (fr tm : list Z) (bs : list (option Q)) (r : R),
        getFeatures m d = mkFeatures (Some fr) (Some tm) (Some bs) (Some r)
        /\ length fr = 512%nat /\ length tm = 1024%nat
        /\ length bs = 5%nat
        /\ Forall (fun b => exists q : Q, b = Some q /\ 0 <= q <= 255) bs
        /\ (0 <= r <= 1)%R
  end.
Proof.
  intros Hf Ht m.
  assert (Hc : ordered m) by apply calls_ordered, fresh_ordered.
  unfold getFeatures, getFrequencyData, getTimeDomainData.
  destruct Hc as [Ha _].
  destruct (analyser m) as [a|]; [|reflexivity].
  destruct (Ha a eq_refl) as [Hfft _].
  unfold frequencyBinCount. rewrite Hfft.
  set (fr := fillBytes (1024 / 2) (byteFrequency d)).
  set (tm := fillBytes 1024 (byteTimeDomain d)).
  assert (Hlen : length tm = 1024%nat) by apply length_fillBytes.
  assert (Htm : Forall uint8 tm) by now apply fillBytes_uint8.
  destruct tm as [|s l] eqn:Etm; [discriminate|].
  rewrite computeRms_cons.
  exists fr, (s :: l), (computeBands fr 5), (rootMeanSquare (s :: l)).
  split; [reflexivity|].
  split; [apply length_fillBytes|].
  split; [exact Hlen|].
  split; [unfold computeBands; now rewrite length_map, length_seq|].
  split.
  - apply computeBands_range. now apply fillBytes_uint8.
  - now apply rootMeanSquare_range.
Qed.

(** The theorem after one granted [start], on empty analyser data. *)
Lemma getFeatures_wellformed_witness :
  exists (fr tm : list Z) (bs : list (option Q)) (r : R),
    getFeatures
      (calls createAudioManager
         [CallStart grantingEnv])
      (mkAnalysisData [] [])
    = mkFeatures (Some fr) (Some tm) (Some bs) (Some r)
    /\ length fr = 512%nat /\ length tm = 1024%nat
    /\ length bs = 5%nat
    /\ Forall (fun b => exists q : Q, b = Some q /\ 0 <= q <= 255) bs
    /\ (0 <= r <= 1)%R.
Proof.
  apply (getFeatures_wellformed [CallStart grantingEnv]
           (mkAnalysisData [] [])); constructor.
Defined.



(** X8: in every state reached by calls of [start] and [stop], whichever
    of them threw, the variables are set in the order [start] assigns
    them: an analyser comes with a source, a source with a context, a
    context with a stream; and the analyser has 1024 as its FFT size. *)
Theorem manager_lifecycle (cs : list ManagerCall) :
  ordered (calls createAudioManager cs).
Proof. apply calls_ordered, fresh_ordered. Qed.

(** X9: after [stop], a visualizer that reads the manager's snapshot
    detects no audio, on either device class. *)
Theorem stopped_manager_is_quiet (cs : list ManagerCall) (d : AnalysisData)
  (g : Visualizer.Features) (mob : bool) :
  sees g (getFeatures (calls createAudioManager (cs ++ [CallStop])) d) ->
  Visualizer.hasAudioRaw mob (Some g) = false.
Proof.
  intros [Htime Hloud].
  unfold calls in *. rewrite fold_left_app in *.
  cbn [fold_left call stop getFeatures getFrequencyData analyser
       neutral AudioSession.time AudioSession.loudness] in *.
  injection Hloud as Hloud.
  assert (Hq : Visualizer.loudness g == 0).
  { apply eqR_Qeq. rewrite <- Hloud. symmetry. apply RMicromega.Q2R_0. }
  unfold Visualizer.hasAudioRaw, Visualizer.featTime,
    Visualizer.featLoudness.
  rewrite Htime, orb_false_r.
  unfold Util.gt. apply negb_false_iff, Qle_bool_iff.
  rewrite Hq. destruct mob; discriminate.
Qed.

(** The theorem on the visualizer's view of the neutral snapshot. *)
Lemma stopped_manager_is_quiet_witness :
  Visualizer.hasAudioRaw false (Some (Visualizer.mkFeatures None 0)) = false.
Proof.
  apply (stopped_manager_is_quiet [] (mkAnalysisData [] [])).
  split; [reflexivity|].
  cbn. f_equal. symmetry. apply RMicromega.Q2R_0.
Defined.

End Manager.

(** ** Audio detection *)

Section Detection.

Import Util Visualizer FrameNotions.

Lemma gt_false_iff (a b : Q) : gt a b = false <-> a <= b.
Proof.
  unfold gt. rewrite negb_false_iff. apply Qle_bool_iff.
Qed.

Lemma still_sample (mob : bool) (s : Z) :
  gt (Qabs (inject_Z s / 255 - 0.5)) (timeVariationThreshold mob) = false
  <-> (stillLow mob <= s <= stillHigh mob)%Z.
Proof.
  rewrite gt_false_iff, Qabs_Qle_condition.
  assert (E : inject_Z s / 255 == inject_Z s * (1 # 255)) by reflexivity.
  rewrite E.
  unfold timeVariationThreshold, stillLow, stillHigh.
  destruct mob.
  - split.
    + intros [Hlo Hhi].
      assert (H1 : 119.85 <= inject_Z s) by lra.
      assert (H2 : inject_Z s <= 135.15) by lra.
      unfold Qle in H1, H2. cbn in H1, H2. lia.
    + intros [Hlo Hhi].
      assert (H1 : inject_Z 120 <= inject_Z s) by (rewrite <- Zle_Qle; lia).
      assert (H2 : inject_Z s <= inject_Z 135) by (rewrite <- Zle_Qle; lia).
      change (inject_Z 120) with 120 in H1.
      change (inject_Z 135) with 135 in H2.
      split; lra.
  - split.
    + intros [Hlo Hhi].
      assert (H1 : 114.75 <= inject_Z s) by lra.
      assert (H2 : inject_Z s <= 140.25) by lra.
      unfold Qle in H1, H2. cbn in H1, H2. lia.
    + intros [Hlo Hhi].
      assert (H1 : inject_Z 115 <= inject_Z s) by (rewrite <- Zle_Qle; lia).
      assert (H2 : inject_Z s <= inject_Z 140) by (rewrite <- Zle_Qle; lia).
      change (inject_Z 115) with 115 in H1.
      change (inject_Z 140) with 140 in H2.
      split; lra.
Qed.

(** X10: the raw detection is false exactly when the loudness is at most
    the threshold (0.02, or 0.01 on mobile) and every waveform sample lies
    in 115..140 (120..135 on mobile); a missing or empty waveform counts as
    still. *)
Theorem hasAudioRaw_false_iff (mob : bool) (features : option Features) :
  hasAudioRaw mob features = false
  <-> featLoudness features <= audioThreshold mob
      /\ match featTime features with
         | Some t => Forall (fun s => (stillLow mob <= s <= stillHigh mob)%Z) t
         | None => True
         end.
Proof.
  unfold hasAudioRaw. rewrite orb_false_iff, gt_false_iff.
  apply and_iff_compat_l.
  destruct (featTime features) as [t|]; [|tauto].
  split.
  - intros H. apply andb_false_iff in H. destruct H as [H|H].
    + apply Nat.ltb_ge in H. destruct t; [constructor | simpl in H; lia].
    + apply Forall_forall. intros s Hs. apply still_sample.
      destruct (gt _ _) eqn:E; [|reflexivity].
      assert (Hex : existsb
                (fun s0 => gt (Qabs (inject_Z s0 / 255 - 0.5))
                              (timeVariationThreshold mob)) t = true)
        by (apply existsb_exists; exists s; auto).
      congruence.
  - intros Hall. apply andb_false_iff. right.
    destruct (existsb _ t) eqn:E; [|reflexivity].
    apply existsb_exists in E. destruct E as [s [Hs Hgt]].
    rewrite Forall_forall in Hall.
    apply Hall, still_sample in Hs. congruence.
Qed.

(** The theorem on a faint two-sample waveform. *)
Lemma hasAudioRaw_false_iff_witness :
  hasAudioRaw false (Some (mkFeatures (Some [128; 130]%Z) 0.01)) = false.
Proof.
  apply hasAudioRaw_false_iff. split.
  - discriminate.
  - repeat constructor; cbn; lia.
Defined.

End Detection.

(** ** The idle regime and the amplitude buffer *)

Section IdleRegime.

Import Util Visualizer FrameNotions.

Lemma segmentTarget_idle (mob : bool) (sens maxAmplitude p : Q) (n : nat)
  (tm : option (list Z)) (i : nat) :
  p == 0 -> segmentTarget mob sens maxAmplitude p n tm i == 0.
Proof.
  intros Hp. unfold segmentTarget. cbv zeta.
  generalize ((segmentSample n tm i - 0.5) * 2).
  generalize (if mob then 1.3 else 1.0).
  intros b m. rewrite Hp. ring.
Qed.

Lemma lerp_zero (a b t : Q) : a == 0 -> b == 0 -> lerp a b t == 0.
Proof. intros Ha Hb. unfold lerp. rewrite Ha, Hb. ring. Qed.

Lemma stepState_idle (v : Visualizer) (inp : FrameInput) :
  hasAudioRaw (isMobile v) (frameFeatures inp) = false ->
  audioPresence (scatterState v) == 0 ->
  Forall (fun a => a == 0) (lineAmplitude (scatterState v)) ->
  audioPresence (scatterState (step v (EvFrame inp))) == 0
  /\ Forall (fun a => a == 0)
       (lineAmplitude (scatterState (step v (EvFrame inp)))).
Proof.
  intros Hq Hp Hall. cbn [step scatterState].
  assert (Hp' : nextPresence (isMobile v) (frameFeatures inp)
                  (audioPresence (scatterState v)) == 0).
  { rewrite nextPresence_quiet; [|exact Hq|lra]. rewrite Hp. ring. }
  split.
  - rewrite stepState_presence. exact Hp'.
  - rewrite stepState_lineAmplitude.
    apply Forall_map, Forall_forall. intros i _.
    apply lerp_zero.
    + destruct (Nat.lt_ge_cases i (length (lineAmplitude (scatterState v))))
        as [Hi|Hi].
      * rewrite Forall_forall in Hall. apply Hall, nth_In, Hi.
      * rewrite nth_overflow by exact Hi. reflexivity.
    + apply segmentTarget_idle, Hp'.
Qed.

Lemma run_idle (es : list Event) (v : Visualizer) :
  forallb (quiet (isMobile v)) es = true ->
  audioPresence (scatterState v) == 0 ->
  Forall (fun a => a == 0) (lineAmplitude (scatterState v)) ->
  audioPresence (scatterState (run v es)) == 0
  /\ Forall (fun a => a == 0) (lineAmplitude (scatterState (run v es))).
Proof.
  revert v. induction es as [|e es IH]; intros v Hq Hp Hall; [now split|].
  cbn [forallb] in Hq. apply andb_true_iff in Hq. destruct Hq as [He Hes].
  change (run v (e :: es)) with (run (step v e) es).
  rewrite <- (step_isMobile v e) in Hes.
  destruct e as [inp| | | | |]; try (apply IH; assumption).
  cbn [quiet] in He. apply negb_true_iff in He.
  destruct (stepState_idle v inp He Hp Hall) as [Hp' Hall'].
  apply IH; assumption.
Qed.

Lemma fresh_idle (mob : bool) (now : Q) (es : list Event) :
  forallb (quiet mob) es = true ->
  audioPresence (scatterState (run (createVisualizer mob now) es)) == 0
  /\ Forall (fun a => a == 0)
       (lineAmplitude (scatterState (run (createVisualizer mob now) es))).
Proof.
  intros Hq. apply run_idle.
  - exact Hq.
  - reflexivity.
  - cbn [createVisualizer scatterState lineAmplitude].
    apply Forall_forall. intros a Ha. apply repeat_spec in Ha. now subst a.
Qed.

(** X12: as long as no frame detects audio (no audio source, a stopped
    manager, or a still waveform), a fresh visualizer stays in the idle
    regime: [audioPresence] and every [lineAmplitude] entry remain 0,
    whatever the setters are given. *)
Theorem idle_regime (mob : bool) (now : Q) (es : list Event) :
  forallb (quiet mob) es = true ->
  let s := scatterState (run (createVisualizer mob now) es) in
  audioPresence s == 0 /\ Forall (fun a => a == 0) (lineAmplitude s).
Proof. intros Hq. now apply fresh_idle. Qed.

(** The theorem on two frames without an audio source. *)
Lemma idle_regime_witness :
  audioPresence
    (scatterState
       (run (createVisualizer false 0)
          [EvFrame (frameAt 16 None); EvFrame (frameAt 32 None)])) == 0.
Proof.
  apply (idle_regime false 0
           [EvFrame (frameAt 16 None); EvFrame (frameAt 32 None)]).
  reflexivity.
Defined.

Lemma step_segments (v : Visualizer) (e : Event) :
  segments (scatterState (step v e)) = segments (scatterState v).
Proof.
  destruct e; try reflexivity.
  cbn [step scatterState]. apply stepState_segments.
Qed.

Lemma run_segments (es : list Event) (v : Visualizer) :
  segments (scatterState (run v es)) = segments (scatterState v).
Proof.
  revert v. induction es as [|e es IH]; intros v; [reflexivity|].
  change (run v (e :: es)) with (run (step v e) es).
  rewrite IH. apply step_segments.
Qed.

(** X13: in every session of a fresh visualizer the segment count never
    changes (140, or 100 on mobile) and [lineAmplitude] keeps exactly one
    entry per segment. *)
Theorem lineAmplitude_length (mob : bool) (now : Q) (es : list Event) :
  let s := scatterState (run (createVisualizer mob now) es) in
  segments s = (if mob then 100 else 140)%nat
  /\ length (lineAmplitude s) = segments s.
Proof.
  cbv zeta. split.
  - rewrite run_segments. reflexivity.
  - assert (Hgen : forall (es : list Event) (v : Visualizer),
               length (lineAmplitude (scatterState v))
               = segments (scatterState v) ->
               length (lineAmplitude (scatterState (run v es)))
               = segments (scatterState (run v es))).
    { clear. induction es as [|e es IH]; intros v Hv; [exact Hv|].
      change (run v (e :: es)) with (run (step v e) es).
      apply IH. destruct e; try exact Hv.
      cbn [step scatterState].
      rewrite stepState_lineAmplitude, stepState_segments.
      now rewrite length_map, length_seq. }
    apply Hgen. cbn [createVisualizer scatterState lineAmplitude segments].
    apply repeat_length.
Qed.

End IdleRegime.

(** ** The ease factor and the sampled index *)

Section EaseAndIndex.

Import Util Visualizer FrameNotions.

Lemma clamp_mono (v v' lo hi : Q) :
  v <= v' -> clamp v lo hi <= clamp v' lo hi.
Proof.
  intros Hle. unfold clamp.
  apply Q.max_le_compat_l, Q.min_le_compat_l, Hle.
Qed.

(** X14: the ease factor never grows when [smoothing] grows and never
    shrinks when the loudness grows. *)
Theorem easeOf_monotone (mob : bool) (smooth smooth' loud loud' : Q) :
  smooth <= smooth' -> loud <= loud' ->
  easeOf mob smooth' loud <= easeOf mob smooth loud
  /\ easeOf mob smooth loud <= easeOf mob smooth loud'.
Proof.
  intros Hs Hl. unfold easeOf. cbv zeta. split.
  - apply clamp_mono.
    assert (Hc : clamp (smooth / 3) 0 1 <= clamp (smooth' / 3) 0 1).
    { apply clamp_mono.
      assert (E : forall x, x / 3 == x * (1 # 3)) by (intros; reflexivity).
      rewrite !E. lra. }
    unfold lerp.
    set (a := clamp (smooth / 3) 0 1) in *.
    set (b := clamp (smooth' / 3) 0 1) in *.
    destruct mob; lra.
  - apply clamp_mono. lra.
Qed.

(** The theorem between the default smoothing 1.4 and the slider's top 3,
    and between silence and full loudness. *)
Lemma easeOf_monotone_witness :
  easeOf false 3 0 <= easeOf false 1.4 0
  /\ easeOf false 1.4 0 <= easeOf false 1.4 1.
Proof. apply easeOf_monotone; discriminate. Defined.

End EaseAndIndex.

(** ** The waveform index on doubles *)

Section SampleIndex.

Import Visualizer DoubleNotions.

Lemma indexAgrees_checked (mob : bool) :
  forallb (indexAgrees (if mob then 100 else 140) 1024)
          (seq 0 (if mob then 100 else 140)) = true.
Proof. destruct mob; vm_compute; reflexivity. Qed.

(** Not so for every length: on a 140-sample waveform segment 47 of 140
    reads index 46, since [(47 / 140) * 140] rounds to
    [46.99999999999999]. *)
Lemma sampleIndex_rounds_down :
  Doubles.sampleIndex 140 140 47 = Some 46%Z
  /\ (47 * 140 / 140 = 47)%nat
  /\ indexAgrees 140 140 47 = false.
Proof. vm_compute. repeat split; reflexivity. Qed.

(** X15: on the analyser's waveform of 1024 samples, for each of the 140
    segments (100 on mobile) the index the code computes on doubles is
    [floor(i * 1024 / segments)]; it lies inside the waveform, so the
    [% timeLength] never wraps, the byte read is the one at that index,
    and the exact-arithmetic sample is that byte over 255. *)
Theorem sampleIndex_analyser (mob : bool) (arr : list Z) (i : nat) :
  let segs := if mob then 100%nat else 140%nat in
  length arr = 1024%nat -> (i < segs)%nat ->
  Doubles.sampleIndex segs (length arr) i
  = Some (Z.of_nat (i * 1024 / segs))
  /\ (i * 1024 / segs < length arr)%nat
  /\ Doubles.segmentByte segs arr i = Some (nth (i * 1024 / segs) arr 0%Z)
  /\ segmentSample segs (Some arr) i
     = inject_Z (nth (i * 1024 / segs) arr 0%Z) / 255.
Proof.
  intros segs Hlen Hi.
  assert (Hsegs : (0 < segs)%nat) by lia.
  assert (Hidx : (i * 1024 / segs < 1024)%nat)
    by (apply Nat.Div0.div_lt_upper_bound; nia).
  assert (Hdbl : Doubles.sampleIndex segs 1024 i
                 = Some (Z.of_nat (i * 1024 / segs))).
  { pose proof (indexAgrees_checked mob) as Hall. fold segs in Hall.
    rewrite forallb_forall in Hall.
    specialize (Hall i). unfold indexAgrees in Hall.
    destruct (Doubles.sampleIndex segs 1024 i) as [idx|].
    - f_equal. apply Z.eqb_eq. apply Hall. apply in_seq. lia.
    - discriminate Hall. apply in_seq. lia. }
  rewrite Hlen. split; [exact Hdbl|]. split; [exact Hidx|]. split.
  - unfold Doubles.segmentByte. rewrite Hlen, Hdbl.
    change (0 <? 1024)%nat with true. cbv iota.
    destruct (Z.ltb_spec (Z.of_nat (i * 1024 / segs)) 0) as [H|_]; [lia|].
    rewrite Nat2Z.id. apply nth_error_nth'. lia.
  - unfold segmentSample. cbv zeta. rewrite Hlen.
    change (0 <? Z.of_nat 1024)%Z with true. cbv iota.
    assert (Hfloor :
      Qfloor (inject_Z (Z.of_nat i) / inject_Z (Z.of_nat segs)
              * inject_Z (Z.of_nat 1024))
      = (Z.of_nat i * Z.of_nat 1024 / Z.of_nat segs)%Z).
    { rewrite Zdiv_Qdiv. apply Qfloor_comp.
      rewrite inject_Z_mult. field.
      intros E. unfold Qeq in E. simpl in E. lia. }
    rewrite Hfloor.
    rewrite <- Nat2Z.inj_mul, <- Nat2Z.inj_div.
    rewrite Z.mod_small by lia.
    rewrite Nat2Z.id. reflexivity.
Qed.

End SampleIndex.

(** The theorem for segment 139 of 140: index 1016. *)
Lemma sampleIndex_analyser_witness :
  Doubles.sampleIndex 140 (length (repeat 255%Z 1024)) 139 = Some 1016%Z.
Proof.
  apply (sampleIndex_analyser false (repeat 255%Z 1024) 139).
  - apply repeat_length.
  - lia.
Defined.

(** ** The dots of a frame *)

Section FrameDots.

Import Util Visualizer FrameNotions.

Variable h : Host.




Lemma amp01_range (r : Ring) (amp : Q) : 0 <= amp01 r amp <= 1.
Proof. unfold amp01. cbv zeta. apply clamp_range. lra. Qed.

Lemma sizeOf_range (r : Ring) (amp : Q) :
  0 <= presence r <= 1 -> 0 <= loud r ->
  let b := if mobile r then 1.3 else 1.0 in
  0.8 * b <= sizeOf r amp <= (3 + 1.8 * loud r) * b.
Proof.
  intros Hp Hl b. unfold sizeOf, lerp. cbv zeta. fold b.
  pose proof (amp01_range r amp) as Ha.
  set (a := amp01 r amp) in *.
  set (p := presence r) in *.
  set (L := loud r) in *.
  assert (Hb : 0 < b) by (unfold b; destruct (mobile r); lra).
  assert (H1 : 0 <= a * p) by (apply Qmult_le_0_compat; lra).
  assert (H2 : 0 <= (1 - a) * p) by (apply Qmult_le_0_compat; lra).
  assert (H3 : 0 <= L * p) by (apply Qmult_le_0_compat; lra).
  assert (H4 : 0 <= L * (1 - p)) by (apply Qmult_le_0_compat; lra).
  assert (E : 1.2 * b + (0.8 * b - 1.2 * b) * p
              + (a * 2.2 + L * 1.8) * p * b
              == b * (1.2 - 0.4 * p + 2.2 * (a * p) + 1.8 * (L * p))) by ring.
  rewrite E.
  assert (E1 : 0.8 * b == b * 0.8) by ring.
  assert (E2 : (3 + 1.8 * L) * b == b * (3 + 1.8 * L)) by ring.
  rewrite E1, E2. split; apply Qmult_le_l; try exact Hb.
  - lra.
  - assert (E3 : L * (1 - p) == L - L * p) by ring.
    assert (E4 : (1 - a) * p == p - a * p) by ring.
    lra.
Qed.

(** X17: in every session of a fresh visualizer, on a frame whose
    loudness is not negative, every dot has a size between 0.8 and
    [3 + 1.8 * loudness] (both times 1.3 on mobile). *)
Theorem frame_dot_size (mob : bool) (now : Q) (es : list Event)
  (inp : FrameInput) (dot : Dot) :
  0 <= featLoudness (frameFeatures inp) ->
  In dot (dots (snd (drawFrame h (run (createVisualizer mob now) es) inp))) ->
  let b := if mob then 1.3 else 1.0 in
  0.8 * b <= size dot <= (3 + 1.8 * featLoudness (frameFeatures inp)) * b.
Proof.
  intros Hl Hin b.
  rewrite drawFrame_dots in Hin.
  apply ringDots_inv in Hin. destruct Hin as [i [d [_ [_ ->]]]].
  unfold dotOf. cbn [size].
  set (v := run (createVisualizer mob now) es) in *.
  assert (Hm : isMobile v = mob)
    by (unfold v; rewrite run_isMobile; reflexivity).
  set (r := ringOf (isMobile v) (config v) inp
              (scatterState (fst (drawFrame h v inp)))).
  assert (Hmob : mobile r = mob) by exact Hm.
  assert (Hloud : loud r = featLoudness (frameFeatures inp)) by reflexivity.
  pose proof (sizeOf_range r
                (nth i (lineAmplitude
                          (scatterState (fst (drawFrame h v inp)))) 0))
    as Hs.
  rewrite Hmob, Hloud in Hs. apply Hs.
  - change (presence r)
      with (audioPresence
              (scatterState (run v [EvFrame inp]))).
    unfold v. rewrite <- run_app. apply run_presence_range. cbn. lra.
  - exact Hl.
Qed.

Lemma abs_mult_le (a b A B : Q) :
  Qabs a <= A -> Qabs b <= B -> Qabs (a * b) <= A * B.
Proof.
  intros Ha Hb. rewrite Qabs_Qmult.
  apply Qmult_le_compat_nonneg; split;
    try apply Qabs_nonneg; assumption.
Qed.

Lemma seed_centered (x : Q) : Qabs (hash01 (Math_sin h) x - 0.5) <= 0.5.
Proof.
  destruct (fractional_part_range
              (Math_sin h (x * 12.9898 + 78.233) * 43758.5453)) as [H0 H1].
  apply Qabs_Qle_condition. unfold hash01. cbv zeta. split; lra.
Qed.

Lemma scatter_amount_le (base lo hi boost p m : Q) :
  0 <= lo <= hi -> 0 <= boost -> 0 <= p <= 1 ->
  Qabs (clamp base lo hi * boost * p * m) <= hi * boost * Qabs m.
Proof.
  intros Hlh Hb Hp.
  pose proof (clamp_range base lo hi ltac:(lra)) as Hc.
  set (c := clamp base lo hi) in *.
  apply abs_mult_le; [|apply Qle_refl].
  apply Qabs_Qle_condition.
  assert (H1 : 0 <= c * boost) by (apply Qmult_le_0_compat; lra).
  assert (H2 : 0 <= c * boost * p) by (apply Qmult_le_0_compat; lra).
  assert (H3 : 0 <= c * boost * (1 - p)) by (apply Qmult_le_0_compat; lra).
  assert (H4 : 0 <= (hi - c) * boost) by (apply Qmult_le_0_compat; lra).
  assert (E3 : c * boost * (1 - p) == c * boost - c * boost * p) by ring.
  assert (E4 : (hi - c) * boost == hi * boost - c * boost) by ring.
  split; lra.
Qed.

(** X18: the audio scatter of a dot is capped whatever the amplitude and
    the loudness: for a presence in [[0, 1]] the tangential displacement is
    at most [9 * |tangentialScatterMultiplier|] and the audio part of the
    radial one at most [4.125 * |radialScatterMultiplier|] (both times 1.4
    on mobile). *)
Theorem scatter_caps (r : Ring) (i : nat) (amp : Q) (d : nat) :
  0 <= presence r <= 1 ->
  let b := if mobile r then 1.4 else 1.0 in
  Qabs (tangentialScatter h r i amp d)
  <= 9 * b * Qabs (tangentialScatterMultiplier (cfg r))
  /\ Qabs (audioRadialScatter h r i amp d)
     <= 4.125 * b * Qabs (radialScatterMultiplier (cfg r)).
Proof.
  intros Hp b.
  assert (Hb : 0 <= mobileScatterBoost r)
    by (unfold mobileScatterBoost; destruct (mobile r); lra).
  split.
  - unfold tangentialScatter, tangentialScatterAmount. cbv zeta.
    assert (E : 9 * b * Qabs (tangentialScatterMultiplier (cfg r))
                == 0.5 * (18 * mobileScatterBoost r
                          * Qabs (tangentialScatterMultiplier (cfg r))))
      by (unfold b, mobileScatterBoost; ring).
    rewrite E. apply abs_mult_le; [apply seed_centered|].
    apply scatter_amount_le; [lra | exact Hb | exact Hp].
  - unfold audioRadialScatter, radialScatterAmount. cbv zeta.
    assert (E : 4.125 * b * Qabs (radialScatterMultiplier (cfg r))
                == 0.5 * (15 * mobileScatterBoost r
                          * Qabs (radialScatterMultiplier (cfg r))) * 0.55)
      by (unfold b, mobileScatterBoost; ring).
    rewrite E.
    apply abs_mult_le; [|discriminate].
    apply abs_mult_le; [apply seed_centered|].
    apply scatter_amount_le; [lra | exact Hb | exact Hp].
Qed.

End FrameDots.

(** The size bound on the first frame of a fresh desktop visualizer
    without an audio source, for its first dot. *)
Lemma frame_dot_size_witness :
  let v := Visualizer.run (Visualizer.createVisualizer false 0) [] in
  let inp := frameAt 16 None in
  let s' := Visualizer.scatterState
              (fst (Visualizer.drawFrame flatHost v inp)) in
  let r := Visualizer.ringOf false (Visualizer.config v) inp s' in
  let dot := Visualizer.dotOf flatHost r 0
               (nth 0 (Visualizer.lineAmplitude s') 0) 0 in
  0.8 * 1.0 <= Visualizer.size dot <= (3 + 1.8 * 0) * 1.0.
Proof.
  intros v inp s' r dot.
  apply (frame_dot_size flatHost false 0 [] inp dot).
  - discriminate.
  - rewrite drawFrame_dots.
    unfold Visualizer.ringDots. apply in_flat_map. exists 0%nat. split.
    + apply in_seq.
      cbn [Visualizer.segs Visualizer.ringOf fst Visualizer.drawFrame
           Visualizer.scatterState].
      rewrite stepState_segments. simpl. lia.
    + apply in_map. apply in_seq. unfold Visualizer.dotCount. lia.
Defined.

(** The caps on a ring at full presence with the default multipliers. *)
Lemma scatter_caps_witness :
  let r := Visualizer.mkRing false (Visualizer.mkConfig 7.2 1.4 5.0 1.0 0.4)
             87.5 1 1 0 140 in
  Qabs (Visualizer.tangentialScatter flatHost r 3 50 7) <= 9 * 1.0 * Qabs 0.4
  /\ Qabs (Visualizer.audioRadialScatter flatHost r 3 50 7)
     <= 4.125 * 1.0 * Qabs 1.0.
Proof.
  intros r. apply (scatter_caps flatHost r 3 50 7).
  split; discriminate.
Defined.

(** ** Dots in the idle regime *)

Section IdleDots.

Import Util Visualizer FrameNotions.

Variable h : Host.

Lemma clamp_id (v lo hi : Q) : lo <= v <= hi -> clamp v lo hi == v.
Proof.
  intros [Hlo Hhi]. unfold clamp.
  rewrite (Q.min_r hi v) by exact Hhi. apply Q.max_r, Hlo.
Qed.







End IdleDots.


(** ** The glow radius and the idle clock *)

Section GlowAndClock.

Import Util Visualizer FrameNotions.

Lemma stepState_glow (mob : bool) (c : Config) (inp : FrameInput)
  (s : ScatterState) :
  let b := baseRadiusOf mob (rectWidth inp) (rectHeight inp) in
  smoothedGlowRadius (stepState mob c inp s)
  = lerp (if Qeq_bool (smoothedGlowRadius s) 0 then b
          else smoothedGlowRadius s)
      (b + featLoudness (frameFeatures inp) * sensitivity c * (b * 1.3))
      0.06.
Proof.
  unfold stepState, updateRing, drawGlow, initGlow, advanceClock.
  cbv zeta. cbn [smoothedGlowRadius].
  destruct (Qeq_bool _ 0); reflexivity.
Qed.

Lemma glow_step_range (b K g x t : Q) :
  0 <= b -> x == b -> 0 <= t <= K ->
  (g == 0 \/ (b <= g <= b + K * (b * 1.3))) ->
  b <= lerp (if Qeq_bool g 0 then x else g) (x + t * (x * 1.3)) 0.06
  <= b + K * (b * 1.3).
Proof.
  intros Hb Hx Ht Hg. unfold lerp.
  assert (H1 : 0 <= t * (b * 1.3)) by (apply Qmult_le_0_compat; lra).
  assert (H2 : 0 <= (K - t) * (b * 1.3)) by (apply Qmult_le_0_compat; lra).
  assert (E2 : (K - t) * (b * 1.3) == K * (b * 1.3) - t * (b * 1.3)) by ring.
  destruct (Qeq_bool g 0) eqn:E.
  - rewrite Hx. split; lra.
  - rewrite Hx. destruct Hg as [Hg|Hg].
    + apply Qeq_bool_iff in Hg. congruence.
    + split; lra.
Qed.

Lemma run_no_frames (es : list Event) (v : Visualizer) :
  frameCount es = 0%nat -> scatterState (run v es) = scatterState v.
Proof.
  revert v. induction es as [|e es IH]; intros v Hn; [reflexivity|].
  change (run v (e :: es)) with (run (step v e) es).
  destruct e; cbn [frameCount] in Hn; try discriminate;
    rewrite (IH _ Hn); reflexivity.
Qed.

Lemma run_glow (b K : Q) (es : list Event) (v : Visualizer) :
  0 <= b -> steadyGlow b K v es ->
  (smoothedGlowRadius (scatterState v) == 0
   \/ b <= smoothedGlowRadius (scatterState v) <= b + K * (b * 1.3)) ->
  (frameCount es = 0%nat
   /\ smoothedGlowRadius (scatterState (run v es))
      = smoothedGlowRadius (scatterState v))
  \/ b <= smoothedGlowRadius (scatterState (run v es)) <= b + K * (b * 1.3).
Proof.
  intros Hb. revert v.
  induction es as [|e es IH]; intros v Hs Hg; [left; now split|].
  change (run v (e :: es)) with (run (step v e) es).
  cbn [steadyGlow] in Hs. destruct Hs as [He Hes].
  destruct e as [inp| | | | |];
    try (exact (IH _ Hes Hg)).
  right. destruct He as [Hx Ht].
  assert (Hstep : b <= smoothedGlowRadius (scatterState (step v (EvFrame inp)))
                  <= b + K * (b * 1.3)).
  { cbn [step scatterState]. rewrite stepState_glow. cbv zeta.
    apply glow_step_range; assumption. }
  destruct (IH _ Hes (or_intror Hstep)) as [[_ E]|H]; [|exact H].
  rewrite E. exact Hstep.
Qed.

(** X20: in a session of a fresh visualizer drawn on a canvas of constant
    base radius [b >= 0] with [loudness * sensitivity] between 0 and [K]
    on every frame, the smoothed glow radius is 0 until the first frame
    and stays between [b] and [b + K * 1.3 * b] afterwards; with no audio
    ([K = 0]) it is exactly [b]. *)
Theorem glow_radius_range (mob : bool) (now b K : Q) (es : list Event) :
  0 <= b -> steadyGlow b K (createVisualizer mob now) es ->
  let g := smoothedGlowRadius
             (scatterState (run (createVisualizer mob now) es)) in
  (frameCount es = 0%nat -> g = 0)
  /\ ((0 < frameCount es)%nat -> b <= g <= b + K * (b * 1.3)).
Proof.
  intros Hb Hs g. split.
  - intros Hn. unfold g. rewrite (run_no_frames es _ Hn). reflexivity.
  - intros Hpos.
    destruct (run_glow b K es (createVisualizer mob now) Hb Hs)
      as [[Hn _]|H]; [left; reflexivity | lia | exact H].
Qed.

(** The theorem on two frames without audio on an 800 x 600 canvas: the
    glow radius is the base radius 70. *)
Lemma glow_radius_range_witness :
  let es := [EvFrame (frameAt 16 None); EvFrame (frameAt 32 None)] in
  70 <= smoothedGlowRadius (scatterState (run (createVisualizer false 0) es))
  <= 70 + 0 * (70 * 1.3).
Proof.
  intros es.
  apply (proj2 (glow_radius_range false 0 70 0 es ltac:(discriminate)
                  ltac:(cbn; repeat split; discriminate))).
  cbn. lia.
Defined.

(** X21: whatever the frame rate, [idleAnimationTime] advances by the
    clock time elapsed between the last frame and the state's starting
    frame time, in seconds, times the animation speed (1, or 1.5 on
    mobile): the steps of the frames in between add up. *)
Theorem idle_time_elapsed (v : Visualizer) (es : list Event) :
  idleAnimationTime (scatterState (run v es))
  - idleAnimationTime (scatterState v)
  == (lastFrameTime (scatterState (run v es))
      - lastFrameTime (scatterState v)) / 1000
     * (if isMobile v then 1.5 else 1.0).
Proof.
  revert v. induction es as [|e es IH]; intros v.
  - cbn [run fold_left].
    assert (E : forall x, x / 1000 == x * (1 # 1000)) by (intros; reflexivity).
    rewrite E. ring.
  - change (run v (e :: es)) with (run (step v e) es).
    pose proof (IH (step v e)) as H. rewrite step_isMobile in H.
    destruct e as [inp| | | | |]; try exact H.
    destruct (stepState_clock (isMobile v) (config v) inp (scatterState v))
      as [Ei El].
    change (stepState (isMobile v) (config v) inp (scatterState v))
      with (scatterState (step v (EvFrame inp))) in Ei, El.
    rewrite Ei, El in H. revert H.
    generalize (idleAnimationTime (scatterState (run (step v (EvFrame inp)) es))),
      (lastFrameTime (scatterState (run (step v (EvFrame inp)) es))),
      (idleAnimationTime (scatterState v)), (lastFrameTime (scatterState v)),
      (frameNow inp).
    intros a l a0 l0 n H.
    assert (E : forall x, x / 1000 == x * (1 # 1000)) by (intros; reflexivity).
    rewrite !E in H. rewrite E.
    destruct (isMobile v); lra.
Qed.

End GlowAndClock.

(** ** The animation loop *)

Section Loop.

Import Visualizer FrameLoop FrameNotions.


Lemma loops_stopped (inps : nat -> FrameInput) (l : list nat) (k : nat)
  (rl : bool) (v : Visualizer) :
  fold_left (fun q j => loop (inps j) q) l (mkPlayer false k rl v)
  = mkPlayer false k rl v.
Proof. induction l as [|j l IH]; [reflexivity | exact IH]. Qed.


Lemma animationFrame_stopped (inps : nat -> FrameInput) (p : Player) :
  running p = false ->
  animationFrame inps p = mkPlayer false 0 (resizeListener p) (vis p).
Proof.
  intros Hr. unfold animationFrame. rewrite Hr. apply loops_stopped.
Qed.

(** X22: after [stop] no display refresh draws anything: the visualizer
    state stays as it was through any number of refreshes, and the first
    refresh empties the callback queue. *)
Theorem stop_halts_drawing (p : Player)
  (frames : list (nat -> FrameInput)) :
  let q := play (stop p) (map Refresh frames) in
  vis q = vis p /\ running q = false
  /\ (frames <> [] -> scheduled q = 0%nat).
Proof.
  assert (Hgen : forall (frames : list (nat -> FrameInput)) (p : Player),
             running p = false ->
             vis (play p (map Refresh frames)) = vis p
             /\ running (play p (map Refresh frames)) = false
             /\ (frames <> [] ->
                 scheduled (play p (map Refresh frames)) = 0%nat)).
  { clear. induction frames as [|f frames IH]; intros p Hr.
    - split; [reflexivity|]. split; [exact Hr|]. intros H. contradiction.
    - cbn [map play fold_left react].
      change (fold_left react (map Refresh frames) (animationFrame f p))
        with (play (animationFrame f p) (map Refresh frames)).
      rewrite (animationFrame_stopped f p Hr).
      destruct (IH (mkPlayer false 0 (resizeListener p) (vis p)) eq_refl)
        as [Hv [Hrun Hs]].
      split; [exact Hv|]. split; [exact Hrun|]. intros _.
      destruct frames as [|g frames]; [reflexivity|].
      apply Hs. discriminate. }
  intros q. apply (Hgen frames (stop p)). reflexivity.
Qed.

(** The theorem on a started player that is stopped before two
    refreshes. *)
Lemma stop_halts_drawing_witness :
  let p := start (createPlayer false 0) in
  let frames := [fun _ => frameAt 16 None; fun _ => frameAt 32 None] in
  scheduled (play (stop p) (map Refresh frames)) = 0%nat.
Proof.
  intros p frames.
  apply (proj2 (proj2 (stop_halts_drawing p frames))).
  discriminate.
Defined.




End Loop.

(** ** lerp and clamp *)

Section Helpers.

Import Util.

(** X24: with [min <= max], [clamp] returns a value in [[min, max]],
    which is [v] itself when [v] is already there and the nearer bound
    otherwise; with the bounds the wrong way round it returns [min]. *)
Theorem clamp_cases (v lo hi : Q) :
  (lo <= hi ->
   lo <= clamp v lo hi <= hi
   /\ (lo <= v <= hi -> clamp v lo hi == v)
   /\ (v <= lo -> clamp v lo hi == lo)
   /\ (hi <= v -> clamp v lo hi == hi))
  /\ (hi < lo -> clamp v lo hi == lo).
Proof.
  unfold clamp. split.
  - intros Hle. split; [apply (clamp_range v lo hi Hle)|].
    split; [apply clamp_id|]. split.
    + intros Hv. apply Q.max_l.
      apply Qle_trans with v; [apply Q.le_min_r | exact Hv].
    + intros Hv. rewrite (Q.min_l hi v) by exact Hv.
      apply Q.max_r, Hle.
  - intros Hlt. apply Q.max_l.
    apply Qle_trans with hi; [apply Q.le_min_l | lra].
Qed.

(** The theorem where the bounds are in order and where they are not. *)
Lemma clamp_cases_witness :
  clamp 7 0 1 == 1 /\ clamp 7 1 0 == 1.
Proof.
  split.
  - apply (proj1 (clamp_cases 7 0 1)); discriminate.
  - apply (proj2 (clamp_cases 7 1 0)). reflexivity.
Defined.

(** X25: for a weight [t] in [[0, 1]], [lerp a b t] lies between [a] and
    [b]; it is [a] at 0 and [b] at 1. *)
Theorem lerp_between (a b t : Q) :
  0 <= t <= 1 ->
  Qmin a b <= lerp a b t <= Qmax a b
  /\ lerp a b 0 == a /\ lerp a b 1 == b.
Proof.
  intros Ht. unfold lerp. split; [|split; ring].
  assert (H1 : 0 <= t * (b - a) \/ 0 <= t * (a - b)).
  { destruct (Qlt_le_dec a b).
    - left. apply Qmult_le_0_compat; lra.
    - right. apply Qmult_le_0_compat; lra. }
  assert (H2 : 0 <= (1 - t) * (b - a) \/ 0 <= (1 - t) * (a - b)).
  { destruct (Qlt_le_dec a b).
    - left. apply Qmult_le_0_compat; lra.
    - right. apply Qmult_le_0_compat; lra. }
  destruct (Q.min_spec a b) as [[Hab Em]|[Hab Em]];
    destruct (Q.max_spec a b) as [[Hab' Ex]|[Hab' Ex]];
    rewrite Em, Ex; try lra.
  - assert (0 <= t * (b - a)) by (apply Qmult_le_0_compat; lra).
    assert (0 <= (1 - t) * (b - a)) by (apply Qmult_le_0_compat; lra).
    split; lra.
  - assert (0 <= t * (a - b)) by (apply Qmult_le_0_compat; lra).
    assert (0 <= (1 - t) * (a - b)) by (apply Qmult_le_0_compat; lra).
    split; lra.
Qed.

(** The theorem at the glow's ease 0.06. *)
Lemma lerp_between_witness :
  Qmin 70 100 <= lerp 70 100 0.06 <= Qmax 70 100.
Proof. apply (lerp_between 70 100 0.06). split; discriminate. Defined.

End Helpers.
